(** * firebase_admin.project_config_mgt: project configuration management

    A shallow embedding of [firebase_admin/project_config_mgt.py]: the
    [Project] value object, the [_ProjectManagementService] with its
    lock-guarded cache of per-project authentication clients, and the two
    REST operations [get_project] and [update_project].

    Python objects are embedded as the [value] type below, exceptions as
    [exn], a call that can raise as a [result], and the service's methods as
    state transformers over a [World] that holds the client cache, the heap of
    allocated client objects (object identity is the heap address) and the
    chronological trace of observable events (HTTP requests, writes to
    standard output, lock operations). *)

From stdpp Require Import gmap strings list fin_maps.

Open Scope string_scope.
Open Scope list_scope.
Set Warnings "-register-all".

(** ** Python values *)

(** The Python objects that reach this module: [None], booleans, integers,
    strings, lists and dictionaries with string keys (decoded JSON).  A
    dictionary keeps its insertion order, hence the association list. *)
Inductive value : Type :=
| VNone
| VBool (b : bool)
| VInt (z : Z)
| VStr (s : string)
| VList (l : list value)
| VDict (d : list (string * value)).

(** [isinstance(v, dict)] *)
Definition is_dict (v : value) : bool :=
  match v with VDict _ => true | _ => false end.

(** [isinstance(v, str)] *)
Definition is_str (v : value) : bool :=
  match v with VStr _ => true | _ => false end.

(** [bool(v)]: Python truthiness. *)
Definition truthy (v : value) : bool :=
  match v with
  | VNone => false
  | VBool b => b
  | VInt z => negb (z =? 0)%Z
  | VStr s => negb (String.eqb s "")
  | VList l => match l with [] => false | _ => true end
  | VDict d => match d with [] => false | _ => true end
  end.

(** [d.get(k)] on the entries of a dictionary; [None] when [k] is missing. *)
Fixpoint dict_lookup (k : string) (d : list (string * value)) : option value :=
  match d with
  | [] => None
  | (k', v) :: d' => if String.eqb k k' then Some v else dict_lookup k d'
  end.

(** [k in d] *)
Definition dict_contains (k : string) (d : list (string * value)) : bool :=
  match dict_lookup k d with Some _ => true | None => false end.

(** [d.get(k)]: the value stored under [k], Python's [None] when missing. *)
Definition dict_get (k : string) (d : list (string * value)) : value :=
  match dict_lookup k d with Some v => v | None => VNone end.

(** [d[k] = v]: overwrite in place when [k] is present, append otherwise. *)
Fixpoint dict_set (k : string) (v : value) (d : list (string * value))
  : list (string * value) :=
  match d with
  | [] => [(k, v)]
  | (k', v') :: d' =>
      if String.eqb k k' then (k', v) :: d' else (k', v') :: dict_set k v d'
  end.

(** [list(d)]: the keys, in insertion order. *)
Definition dict_keys (d : list (string * value)) : list string := map fst d.

(** [sep.join(l)] *)
Fixpoint str_join (sep : string) (l : list string) : string :=
  match l with
  | [] => ""
  | [s] => s
  | s :: l' => s +:+ sep +:+ str_join sep l'
  end.

(** ** Exceptions and results *)

(** Modelled from the spec: the domain errors of [_auth_utils], which is not
    part of the sources at hand.  The spec's taxonomy has a project-not-found
    error and a generic backend error. *)
Inductive FirebaseError : Type :=
| ProjectNotFoundError (msg : string)
| BackendError (code msg : string).

(** A [ValueError] carries its message as the format template and the
    arguments substituted into it. *)
Inductive exn : Type :=
| ValueError (template : string) (args : list value)
| RequestException (detail : string)
| Firebase (e : FirebaseError)
| OtherException (name : string).

Inductive result (A : Type) : Type :=
| Ok (a : A)
| Raise (e : exn).
Arguments Ok {A} a.
Arguments Raise {A} e.

(** The invalid-argument errors of the spec are Python's [ValueError]. *)
Definition is_ValueError {A} (r : result A) : bool :=
  match r with Raise (ValueError _ _) => true | _ => false end.

Definition is_ProjectNotFound {A} (r : result A) : bool :=
  match r with Raise (Firebase (ProjectNotFoundError _)) => true | _ => false end.

(** ** Observable events and the world *)

(** The arguments of [JsonHttpClient.body(method, url=, json=, params=)]. *)
Record Request : Type := mkRequest {
  req_method : string;
  req_url : string;
  req_json : option value;
  req_params : option string
}.

Inductive Event : Type :=
| EvRequest (r : Request)
| EvPrint (v : value)
| EvAcquire
| EvRelease.

(** What the transport does with a request: a decoded body, a
    [requests.exceptions.RequestException], or any other exception. *)
Inductive Response : Type :=
| RespBody (body : value)
| RespRequestException (detail : string)
| RespOther (name : string).

(** The application handle the service is created for. *)
Record App : Type := mkApp {
  app_name : string;
  app_project_id : string
}.

(** An [auth.Client] object: [auth.Client(app, project_id=project_id)].
    Modelled from the spec: the class is not part of the sources at hand;
    its construction is object setup only, without side effect or failure. *)
Record Client : Type := mkClient {
  client_app : App;
  client_project_id : string
}.

(** Object identity of a client: its address in the heap. *)
Abbreviation addr := nat.

Record World : Type := mkWorld {
  project_clients : gmap string addr;
  heap : list Client;
  trace : list Event
}.

(** ** The state and exception monad of the service's methods *)

Definition M (A : Type) : Type := World -> result A * World.

Definition ret {A} (a : A) : M A := fun w => (Ok a, w).

Definition raise {A} (e : exn) : M A := fun w => (Raise e, w).

Definition bind {A B} (m : M A) (k : A -> M B) : M B :=
  fun w =>
    match m w with
    | (Ok a, w') => k a w'
    | (Raise e, w') => (Raise e, w')
    end.

Notation "'do' x <- m ; k" := (bind m (fun x => k))
  (at level 10, x name, m at level 100, k at level 200).

Definition lift {A} (r : result A) : M A := fun w => (r, w).

Definition emit (e : Event) : M unit :=
  fun w => (Ok tt, mkWorld (project_clients w) (heap w) (trace w ++ [e])).

(** [with self.lock: body]: the lock is taken, the body runs, and the lock
    is released whether the body returns or raises. *)
Definition with_lock {A} (body : M A) : M A :=
  fun w =>
    match emit EvAcquire w with
    | (_, w1) =>
        match body w1 with
        | (r, w2) => (r, snd (emit EvRelease w2))
        end
    end.

(** [try: m / except RequestException as error: raise handler(error) /
    else: els]: only a [RequestException] raised by [m] is caught; the
    [else] branch runs outside the handler. *)
Definition try_except_RequestException {A B}
    (m : M A) (handler : string -> M B) (els : A -> M B) : M B :=
  fun w =>
    match m w with
    | (Ok a, w') => els a w'
    | (Raise (RequestException detail), w') => handler detail w'
    | (Raise e, w') => (Raise e, w')
    end.

(** [print(v)] *)
Definition print (v : value) : M unit := emit (EvPrint v).

(** ** Collaborators

    The module calls into [_auth_utils], [_http_client] and
    [multi_factor_config_mgt], none of which is part of the sources at hand.
    They are taken as parameters: a value-object constructor that may
    reject its input, a validator that returns the serialisable form of an
    MFA configuration or raises, a payload adapter, the error mapping from a
    transport error to a domain error, and the transport itself, whose answer
    may depend on the request and on everything observed so far. *)
Class Collaborators : Type := {
  MultiFactorConfig : Type;
  MultiFactorConfig_new : value -> result MultiFactorConfig;
  validate_mfa_config : value -> result value;
  convertProjectAuthPayloadToUser : value -> value;
  handle_auth_backend_error : string -> FirebaseError;
  client_body : list Event -> Request -> Response
}.

(** Modelled from the spec: [_auth_utils.build_update_mask], which is not
    part of the sources at hand.  The spec has the mask list exactly the
    top-level keys present in the payload, in payload key order. *)
Definition build_update_mask (payload : list (string * value)) : list string :=
  dict_keys payload.

(** ** class Project *)

Record Project : Type := mkProject {
  _data : list (string * value)
}.

(** [Project.__init__(self, data)] *)
Definition Project_new (data : value) : result Project :=
  match data with
  | VDict d =>
      if negb (dict_contains "name" d)
      then Raise (ValueError "Project response missing required keys." [])
      else Ok (mkProject d)
  | _ =>
      Raise (ValueError "Invalid data argument in Project constructor: {0}" [data])
  end.

(** [Project.project_id] *)
Definition project_id (self : Project) : value :=
  dict_get "name" (_data self).

Section WithCollaborators.
Context `{Collaborators}.

(** [Project.mfa]: the value read, and the object after the read (a
    property getter is free to cache what it decoded in [self]). *)
Definition mfa (self : Project)
  : result (option MultiFactorConfig) * Project :=
  let data := dict_get "multiFactorConfig" (_data self) in
  if truthy data
  then (match MultiFactorConfig_new data with
        | Ok c => Ok (Some c)
        | Raise e => Raise e
        end, self)
  else (Ok None, self).

(** ** class _ProjectManagementService *)

Definition PROJECT_CONFIG_MGT_URL : string :=
  "https://identitytoolkit.googleapis.com/admin/v2/projects".

(** The fields of the service that never change after [__init__]. *)
Record Service : Type := mkService {
  svc_app : App;
  svc_base_url : string
}.

(** [_ProjectManagementService.__init__(self, app)]: the immutable fields,
    and the world with an empty [project_clients]; [h] is the heap of the
    client objects that exist already and [t] what was observed so far. *)
Definition Service_new (app : App) : Service :=
  mkService app (PROJECT_CONFIG_MGT_URL +:+ "/" +:+ app_project_id app +:+ "/config").

Definition Service_init_world (h : list Client) (t : list Event) : World :=
  mkWorld ∅ h t.

(** [auth.Client(self.app, project_id=project_id)]: a fresh object. *)
Definition Client_new (app : App) (pid : string) : M addr :=
  fun w =>
    (Ok (length (heap w)),
     mkWorld (project_clients w) (heap w ++ [mkClient app pid]) (trace w)).

(** [self.project_clients[project_id] = client] *)
Definition store_client (pid : string) (client : addr) : M unit :=
  fun w => (Ok tt, mkWorld (<[pid := client]> (project_clients w)) (heap w) (trace w)).

Definition read_clients : M (gmap string addr) :=
  fun w => (Ok (project_clients w), w).

Definition invalid_project_id (v : value) : exn :=
  ValueError "Invalid project ID: {0}. Project ID must be a non-empty string." [v].

(** [_ProjectManagementService.auth_for_project(self, project_id)] *)
Definition auth_for_project (self : Service) (project_id : value) : M addr :=
  match project_id with
  | VStr s =>
      if negb (truthy project_id)
      then raise (invalid_project_id project_id)
      else
        with_lock
          (do clients <- read_clients;
           match clients !! s with
           | Some client => ret client
           | None =>
               do client <- Client_new (svc_app self) s;
               do _ <- store_client s client;
               ret client
           end)
  | _ => raise (invalid_project_id project_id)
  end.

(** [self.client.body(method, url=, json=, params=)] *)
Definition http_body (req : Request) : M value :=
  fun w =>
    let w' := mkWorld (project_clients w) (heap w) (trace w ++ [EvRequest req]) in
    match client_body (trace w) req with
    | RespBody body => (Ok body, w')
    | RespRequestException detail => (Raise (RequestException detail), w')
    | RespOther name => (Raise (OtherException name), w')
    end.

Definition get_request : Request := mkRequest "get" "" None None.

(** [_ProjectManagementService.get_project(self)] *)
Definition get_project (self : Service) : M Project :=
  try_except_RequestException
    (http_body get_request)
    (fun error => raise (Firebase (handle_auth_backend_error error)))
    (fun body =>
       let body := convertProjectAuthPayloadToUser body in
       do _ <- print body;
       lift (Project_new body)).

(** Lines 173-177 of [update_project]: the request sent for a payload. *)
Definition update_request (payload : list (string * value)) : Request :=
  let update_mask := str_join "," (build_update_mask payload) in
  let params := "updateMask=" +:+ update_mask in
  mkRequest "patch" "" (Some (VDict payload)) (Some params).

Definition no_update_parameter : exn :=
  ValueError "At least one parameter must be specified for update." [].

(** [_ProjectManagementService.update_project(self, mfa=None)] *)
Definition update_project (self : Service) (mfa : value) : M Project :=
  do payload <-
    match mfa with
    | VNone => ret []
    | _ => do v <- lift (validate_mfa_config mfa); ret (dict_set "mfa" v [])
    end;
  if negb (truthy (VDict payload))
  then raise no_update_parameter
  else
    try_except_RequestException
      (http_body (update_request payload))
      (fun error => raise (Firebase (handle_auth_backend_error error)))
      (fun body =>
         let body := convertProjectAuthPayloadToUser body in
         lift (Project_new body)).

(** ** Sequences of calls on one service *)

Inductive call : Type :=
| CallAuthForProject (project_id : value)
| CallGetProject
| CallUpdateProject (mfa : value).

(** The world after a call, whether it returned or raised. *)
Definition run_call (self : Service) (c : call) (w : World) : World :=
  match c with
  | CallAuthForProject v => snd (auth_for_project self v w)
  | CallGetProject => snd (get_project self w)
  | CallUpdateProject v => snd (update_project self v w)
  end.

Definition run_calls (self : Service) (cs : list call) (w : World) : World :=
  fold_left (fun w c => run_call self c w) cs w.

(** The requests among a list of events. *)
Definition requests_of (t : list Event) : list Request :=
  omap (fun e => match e with EvRequest r => Some r | _ => None end) t.

End WithCollaborators.

(** ** Concurrent callers of [auth_for_project]

    Several threads call [auth_for_project] on one service.  A thread is at
    one of the program points of the method; a step of a thread executes the
    statement at its program point on the shared world.  [self.lock] is a
    [threading.RLock]: free, or held by one thread a number of times; a thread
    that finds it held by another one cannot step. *)
Module Threads.

Inductive pc : Type :=
| AtCheck (project_id : value)          (* line 139, the call starts *)
| AtAcquire (s : string)                (* line 143, entering [with self.lock] *)
| AtLookup (s : string)                 (* line 144 *)
| AtConstruct (s : string)              (* line 147 *)
| AtStore (s : string) (client : addr)  (* line 148 *)
| AtRelease (client : addr)             (* lines 145 and 149, leaving the block *)
| Returned (r : result addr).

Record Config : Type := mkConfig {
  world : World;
  lock : option (nat * nat);
  threads : list pc
}.

Definition set_pc (i : nat) (p : pc) (c : Config) : Config :=
  mkConfig (world c) (lock c) (<[i := p]> (threads c)).

(** One step of thread [i]; [None] when the thread does not exist, has
    returned, or waits for the lock. *)
Definition step (self : Service) (i : nat) (c : Config) : option Config :=
  match threads c !! i with
  | None => None
  | Some (AtCheck v) =>
      match v with
      | VStr s =>
          if negb (truthy v)
          then Some (set_pc i (Returned (Raise (invalid_project_id v))) c)
          else Some (set_pc i (AtAcquire s) c)
      | _ => Some (set_pc i (Returned (Raise (invalid_project_id v))) c)
      end
  | Some (AtAcquire s) =>
      match lock c with
      | None =>
          Some (mkConfig (snd (emit EvAcquire (world c))) (Some (i, 1))
                  (<[i := AtLookup s]> (threads c)))
      | Some (owner, n) =>
          if decide (owner = i)
          then Some (mkConfig (snd (emit EvAcquire (world c))) (Some (i, S n))
                       (<[i := AtLookup s]> (threads c)))
          else None
      end
  | Some (AtLookup s) =>
      match project_clients (world c) !! s with
      | Some client => Some (set_pc i (AtRelease client) c)
      | None => Some (set_pc i (AtConstruct s) c)
      end
  | Some (AtConstruct s) =>
      match Client_new (svc_app self) s (world c) with
      | (Ok client, w') =>
          Some (mkConfig w' (lock c) (<[i := AtStore s client]> (threads c)))
      | (Raise e, w') =>
          Some (mkConfig w' (lock c) (<[i := Returned (Raise e)]> (threads c)))
      end
  | Some (AtStore s client) =>
      Some (mkConfig (snd (store_client s client (world c))) (lock c)
              (<[i := AtRelease client]> (threads c)))
  | Some (AtRelease client) =>
      match lock c with
      | Some (owner, S n) =>
          if decide (owner = i)
          then Some (mkConfig (snd (emit EvRelease (world c)))
                       (match n with O => None | S _ => Some (owner, n) end)
                       (<[i := Returned (Ok client)]> (threads c)))
          else Some (set_pc i (Returned (Raise (OtherException "RuntimeError"))) c)
      | _ => Some (set_pc i (Returned (Raise (OtherException "RuntimeError"))) c)
      end
  | Some (Returned _) => None
  end.

(** A schedule names the thread that is given the next turn; a turn given
    to a thread that cannot step changes nothing. *)
Definition turn (self : Service) (c : Config) (i : nat) : Config :=
  match step self i c with Some c' => c' | None => c end.

Definition run (self : Service) (sched : list nat) (c : Config) : Config :=
  fold_left (turn self) sched c.

(** [n] threads about to call [auth_for_project] with their arguments. *)
Definition start (w : World) (args : list value) : Config :=
  mkConfig w None (map AtCheck args).

Definition has_returned (p : pc) : bool :=
  match p with Returned _ => true | _ => false end.

Definition all_returned (c : Config) : bool :=
  forallb has_returned (threads c).

(** The statements a thread has still to execute, at most. *)
Definition remaining (p : pc) : nat :=
  match p with
  | AtCheck _ => 6
  | AtAcquire _ => 5
  | AtLookup _ => 4
  | AtConstruct _ => 3
  | AtStore _ _ => 2
  | AtRelease _ => 1
  | Returned _ => 0
  end.

Definition work (c : Config) : nat := sum_list (map remaining (threads c)).

(** The invariant of [n] callers with the same unseen project ID [pid],
    started in a world with cache [m0] and heap [h0]. *)
Section Invariant.
Variable self : Service.
Variable pid : string.
Variable m0 : gmap string addr.
Variable h0 : list Client.

Definition the_client : Client := mkClient (svc_app self) pid.

Definition not_created (c : Config) : Prop :=
  heap (world c) = h0 /\ project_clients (world c) = m0.

Definition created (c : Config) : Prop :=
  heap (world c) = h0 ++ [the_client] /\ project_clients (world c) = m0.

Definition stored (c : Config) : Prop :=
  heap (world c) = h0 ++ [the_client] /\
  project_clients (world c) = <[pid := length h0]> m0.

Definition pc_ok (c : Config) (i : nat) (p : pc) : Prop :=
  match p with
  | AtCheck v => v = VStr pid
  | AtAcquire s => s = pid
  | AtLookup s => s = pid /\ lock c = Some (i, 1) /\ (not_created c \/ stored c)
  | AtConstruct s => s = pid /\ lock c = Some (i, 1) /\ not_created c
  | AtStore s a => s = pid /\ a = length h0 /\ lock c = Some (i, 1) /\ created c
  | AtRelease a => a = length h0 /\ lock c = Some (i, 1) /\ stored c
  | Returned r => r = Ok (length h0) /\ stored c
  end.

Definition holds_lock (p : pc) : bool :=
  match p with
  | AtLookup _ | AtConstruct _ | AtStore _ _ | AtRelease _ => true
  | _ => false
  end.

Definition inv (c : Config) : Prop :=
  (forall i p, threads c !! i = Some p -> pc_ok c i p) /\
  (forall o n, lock c = Some (o, n) ->
     exists p, threads c !! o = Some p /\ holds_lock p = true) /\
  (not_created c \/ created c \/ stored c) /\
  (lock c = None -> not_created c \/ stored c).

End Invariant.

End Threads.

(** ** Predicates on worlds *)

(** The world after one more observable event. *)
Definition observed (w : World) (e : Event) : World :=
  mkWorld (project_clients w) (heap w) (trace w ++ [e]).

(** The world after [with self.lock] was entered and left. *)
Definition locked_once (w : World) : World :=
  observed (observed w EvAcquire) EvRelease.

(** Every entry of the cache names a client object of the heap that was
    built for the entry's project ID. *)
Definition cache_ok (self : Service) (w : World) : Prop :=
  forall k a, project_clients w !! k = Some a ->
    heap w !! a = Some (mkClient (svc_app self) k).

(** ** Stub collaborators, for running the model on concrete inputs *)

(** A transport that gives the same answer to every request, a validator
    and a value-object constructor that accept dictionaries only, the
    identity as payload adapter, and an error mapping that recognises the
    detail ["PROJECT_NOT_FOUND"]. *)
Definition stub (answer : Response) : Collaborators := {|
  MultiFactorConfig := list (string * value);
  MultiFactorConfig_new := fun data =>
    match data with
    | VDict d => Ok d
    | _ => Raise (ValueError "Invalid data argument in MultiFactorConfig constructor: {0}" [data])
    end;
  validate_mfa_config := fun mfa =>
    match mfa with
    | VDict _ => Ok mfa
    | _ => Raise (ValueError "multiFactorConfig must be of type MultiFactorConfig." [])
    end;
  convertProjectAuthPayloadToUser := fun body => body;
  handle_auth_backend_error := fun detail =>
    if String.eqb detail "PROJECT_NOT_FOUND"
    then ProjectNotFoundError "No project found for the given identifier."
    else BackendError "UNKNOWN" detail;
  client_body := fun _ _ => answer
|}.

Definition app1 : App := mkApp "[DEFAULT]" "p1".
Definition service1 : Service := Service_new app1.
Definition world0 : World := Service_init_world [] [].
Definition project1 : value :=
  VDict [("name", VStr "projects/p1");
         ("multiFactorConfig", VDict [("state", VStr "ENABLED")])].
Definition mfa1 : value := VDict [("state", VStr "ENABLED")].

(** ** More observations on traces and call sequences *)

(** The values written to standard output among a list of events. *)
Definition prints_of (t : list Event) : list value :=
  omap (fun e => match e with EvPrint v => Some v | _ => None end) t.

Definition is_lock_event (e : Event) : bool :=
  match e with EvAcquire | EvRelease => true | _ => false end.

(** The lock operations among a list of events. *)
Definition lock_events_of (t : list Event) : list Event :=
  List.filter is_lock_event t.

(** The project IDs a sequence of calls asks a client for: the non-empty
    strings passed to [auth_for_project], in call order. *)
Fixpoint requested_ids (cs : list call) : list string :=
  match cs with
  | [] => []
  | CallAuthForProject (VStr s) :: cs' =>
      if String.eqb s "" then requested_ids cs' else s :: requested_ids cs'
  | _ :: cs' => requested_ids cs'
  end.

(** ** The invariant of concurrent callers with arbitrary arguments

    Thread [i] was started with the argument [args !! i] on a service whose
    lock was free, in the world [w0]. *)
Section AnyCallers.
Variable self : Service.
Variable args : list value.
Variable w0 : World.

(** What holds of thread [i] at program point [p]. *)
Definition caller_ok (c : Threads.Config) (i : nat) (p : Threads.pc) : Prop :=
  exists v, args !! i = Some v /\
  match p with
  | Threads.AtCheck v' => v' = v
  | Threads.AtAcquire s => v = VStr s /\ s <> ""
  | Threads.AtLookup s =>
      v = VStr s /\ s <> "" /\ Threads.lock c = Some (i, 1)
  | Threads.AtConstruct s =>
      v = VStr s /\ s <> "" /\ Threads.lock c = Some (i, 1) /\
      project_clients (Threads.world c) !! s = None
  | Threads.AtStore s a =>
      v = VStr s /\ s <> "" /\ Threads.lock c = Some (i, 1) /\
      project_clients (Threads.world c) !! s = None /\
      heap (Threads.world c) !! a = Some (mkClient (svc_app self) s)
  | Threads.AtRelease a =>
      exists s, v = VStr s /\ s <> "" /\ Threads.lock c = Some (i, 1) /\
                project_clients (Threads.world c) !! s = Some a
  | Threads.Returned r =>
      (is_str v && truthy v = false /\ r = Raise (invalid_project_id v)) \/
      (exists s a, v = VStr s /\ s <> "" /\ r = Ok a /\
                   project_clients (Threads.world c) !! s = Some a)
  end.

Definition callers_inv (c : Threads.Config) : Prop :=
  (forall i p, Threads.threads c !! i = Some p -> caller_ok c i p) /\
  (forall o n, Threads.lock c = Some (o, n) ->
     exists p, Threads.threads c !! o = Some p /\ Threads.holds_lock p = true) /\
  cache_ok self (Threads.world c) /\
  (forall k a, project_clients w0 !! k = Some a ->
     project_clients (Threads.world c) !! k = Some a) /\
  (exists created, heap (Threads.world c) = heap w0 ++ created).

End AnyCallers.

(** The turns of a schedule at which the thread named does step. *)
Fixpoint effective_turns (self : Service) (sched : list nat) (c : Threads.Config)
  : nat :=
  match sched with
  | [] => 0
  | i :: sched' =>
      match Threads.step self i c with
      | Some c' => S (effective_turns self sched' c')
      | None => effective_turns self sched' c
      end
  end.

(** ** Sequential executions that concurrent callers are compared with *)

(** A thread's call has taken effect once it is about to release the lock
    or has returned. *)
Definition linearised (p : Threads.pc) : bool :=
  match p with
  | Threads.AtRelease _ | Threads.Returned _ => true
  | _ => false
  end.

Definition auth_calls (vals : list value) : list call :=
  map CallAuthForProject vals.

Section Linearisation.
Context `{Collaborators}.
Variable self : Service.
Variable args : list value.
Variable w0 : World.

(** The world after [auth_for_project] was called with [vals], one call
    after the other. *)
Definition seq_world (vals : list value) : World :=
  run_calls self (auth_calls vals) w0.

(** The threads of [order] hold (or are about to return) what the calls
    with [vals], in that order, return. *)
Definition results_ok (ts : list Threads.pc) (order : list nat) (vals : list value)
  : Prop :=
  forall k i v, order !! k = Some i -> vals !! k = Some v ->
    ts !! i = Some (Threads.Returned
                      (fst (auth_for_project self v (seq_world (take k vals)))))
    \/ exists a,
         fst (auth_for_project self v (seq_world (take k vals))) = Ok a /\
         ts !! i = Some (Threads.AtRelease a).

(** The calls that have taken effect, in the order in which they did, explain
    the cache, the heap and the results. *)
Definition lin_inv (c : Threads.Config) : Prop :=
  exists order vals,
    NoDup order /\
    Forall2 (fun i v => args !! i = Some v) order vals /\
    (forall i, i ∈ order <->
       exists p, Threads.threads c !! i = Some p /\ linearised p = true) /\
    project_clients (Threads.world c) = project_clients (seq_world vals) /\
    ((forall i s a, Threads.threads c !! i <> Some (Threads.AtStore s a)) ->
       heap (Threads.world c) = heap (seq_world vals)) /\
    (forall i s a, Threads.threads c !! i = Some (Threads.AtStore s a) ->
       a = length (heap (seq_world vals)) /\
       heap (Threads.world c)
       = heap (seq_world vals) ++ [mkClient (svc_app self) s]) /\
    results_ok (Threads.threads c) order vals.

End Linearisation.

(** * Properties *)

(** ** The model on concrete inputs *)

Example Project_new_project1 :
  exists p, Project_new project1 = Ok p /\ project_id p = VStr "projects/p1".
Proof. eexists. split; reflexivity. Qed.

Example Project_new_int : is_ValueError (Project_new (VInt 5)) = true.
Proof. reflexivity. Qed.

Example update_request_two_keys :
  req_params (update_request [("mfa", VNone); ("smsRegionConfig", VNone)])
  = Some "updateMask=mfa,smsRegionConfig".
Proof. reflexivity. Qed.

Example get_project_stub :
  exists p,
    @get_project (stub (RespBody project1)) service1 world0
    = (Ok p, mkWorld ∅ [] [EvRequest get_request; EvPrint project1])
    /\ fst (@mfa (stub (RespBody project1)) p)
       = Ok (Some [("state", VStr "ENABLED")]).
Proof.
  exists (mkProject [("name", VStr "projects/p1");
                     ("multiFactorConfig", VDict [("state", VStr "ENABLED")])]).
  split; reflexivity.
Qed.

Example auth_for_project_twice :
  let '(r1, w1) := auth_for_project service1 (VStr "a") world0 in
  let '(r2, w2) := auth_for_project service1 (VStr "b") w1 in
  let '(r3, w3) := auth_for_project service1 (VStr "a") w2 in
  r1 = Ok 0 /\ r2 = Ok 1 /\ r3 = Ok 0 /\ length (heap w3) = 2.
Proof. vm_compute. repeat split; reflexivity. Qed.

(** Three threads with the same unseen ID under an interleaved schedule:
    thread 1 takes the lock first, threads 0 and 2 wait for it. *)
Example three_threads_interleaved :
  let c := Threads.run service1
             [0; 1; 1; 0; 2; 2; 1; 0; 1; 1; 2; 1; 0; 0; 0; 2; 2; 2; 2]
             (Threads.start world0 [VStr "a"; VStr "a"; VStr "a"]) in
  Threads.threads c
  = [Threads.Returned (Ok 0); Threads.Returned (Ok 0); Threads.Returned (Ok 0)]
  /\ heap (Threads.world c) = [mkClient app1 "a"]
  /\ Threads.lock c = None.
Proof. vm_compute. repeat split. Qed.

(** A thread that waits for the lock does not move. *)
Example blocked_thread_waits :
  let c := Threads.run service1 [0; 0; 1; 1; 1; 1]
             (Threads.start world0 [VStr "a"; VStr "a"]) in
  Threads.threads c = [Threads.AtLookup "a"; Threads.AtAcquire "a"]
  /\ Threads.lock c = Some (0, 1).
Proof. vm_compute. repeat split. Qed.

(** ** Dictionaries *)

Lemma dict_contains_lookup k d :
  dict_contains k d = true <-> exists v, dict_lookup k d = Some v.
Proof.
  unfold dict_contains. destruct (dict_lookup k d) as [v|].
  - split; [eauto | reflexivity].
  - split; [discriminate | intros [v Hv]; discriminate].
Qed.

Lemma dict_get_lookup k d v : dict_lookup k d = Some v -> dict_get k d = v.
Proof. unfold dict_get. intros ->. reflexivity. Qed.

Lemma dict_get_missing k d : dict_lookup k d = None -> dict_get k d = VNone.
Proof. unfold dict_get. intros ->. reflexivity. Qed.

Lemma value_None_or_not (v : value) : v = VNone \/ v <> VNone.
Proof. destruct v; [left; reflexivity | right; discriminate ..]. Qed.

(** ** class Project *)

Lemma Project_new_dict d :
  Project_new (VDict d)
  = if dict_contains "name" d then Ok (mkProject d)
    else Raise (ValueError "Project response missing required keys." []).
Proof. unfold Project_new. destruct (dict_contains "name" d); reflexivity. Qed.

Lemma Project_new_not_dict data :
  is_dict data = false ->
  Project_new data
  = Raise (ValueError "Invalid data argument in Project constructor: {0}" [data]).
Proof. destruct data; simpl; intros Hd; try reflexivity; discriminate. Qed.

(** C6: the [Project] constructor raises a [ValueError] exactly when its
    argument is not a dictionary or is a dictionary without the key
    ["name"]; [Project({})] raises; on a dictionary with the key ["name"] it
    returns a project whose [project_id] is the value stored under that key. *)
Theorem Project_new_fails_iff (data : value) :
  (is_ValueError (Project_new data) = true <->
     is_dict data = false \/
     exists d, data = VDict d /\ dict_contains "name" d = false) /\
  ((exists e, Project_new data = Raise e) <->
     is_ValueError (Project_new data) = true) /\
  is_ValueError (Project_new (VDict [])) = true /\
  (forall d, data = VDict d -> dict_contains "name" d = true ->
     Project_new data = Ok (mkProject d) /\
     dict_lookup "name" d = Some (project_id (mkProject d))).
Proof.
  split; [|split; [|split]].
  - destruct data as [| | | | |d];
      try (split; [intros _; left; reflexivity | reflexivity]).
    rewrite Project_new_dict. destruct (dict_contains "name" d) eqn:Hc; simpl.
    + split; [discriminate |].
      intros [Hd | (d' & Heq & Hn)]; [discriminate |].
      injection Heq as <-. congruence.
    + split; [| reflexivity]. intros _. right. exists d. split; [reflexivity | exact Hc].
  - split.
    + intros [e He]. rewrite He.
      destruct data as [| | | | |d]; try (injection He as <-; reflexivity).
      rewrite Project_new_dict in He.
      destruct (dict_contains "name" d); [discriminate |].
      injection He as <-. reflexivity.
    + destruct (Project_new data) as [p|e]; [discriminate | eauto].
  - reflexivity.
  - intros d -> Hc. rewrite Project_new_dict, Hc. split; [reflexivity |].
    apply dict_contains_lookup in Hc as [v Hv].
    unfold project_id. simpl. rewrite (dict_get_lookup _ _ _ Hv). exact Hv.
Qed.

(** C10: the constructor looks at the presence of the key ["name"] only:
    when the value stored under it is falsy ([None], the empty string),
    construction succeeds and [project_id] is that falsy value. *)
Theorem Project_new_falsy_name (d : list (string * value)) (v : value) :
  dict_lookup "name" d = Some v ->
  truthy v = false ->
  exists p, Project_new (VDict d) = Ok p /\ project_id p = v /\
            truthy (project_id p) = false.
Proof.
  intros Hv Hf. exists (mkProject d).
  assert (Hc : dict_contains "name" d = true)
    by (apply dict_contains_lookup; eauto).
  rewrite Project_new_dict, Hc. unfold project_id. simpl.
  rewrite (dict_get_lookup _ _ _ Hv). auto.
Qed.

Section ProjectProperties.
Context `{Collaborators}.

(** C7: [mfa] is [None] when the key ["multiFactorConfig"] is missing or its
    value is falsy; otherwise it is the value object that
    [MultiFactorConfig] builds from exactly that value (an error of that
    constructor is passed on); the project is the same after the read. *)
Theorem mfa_spec (p : Project) :
  (dict_lookup "multiFactorConfig" (_data p) = None -> fst (mfa p) = Ok None) /\
  (forall d, dict_lookup "multiFactorConfig" (_data p) = Some d ->
     truthy d = false -> fst (mfa p) = Ok None) /\
  (forall d c, dict_lookup "multiFactorConfig" (_data p) = Some d ->
     truthy d = true -> MultiFactorConfig_new d = Ok c ->
     fst (mfa p) = Ok (Some c)) /\
  (forall d e, dict_lookup "multiFactorConfig" (_data p) = Some d ->
     truthy d = true -> MultiFactorConfig_new d = Raise e ->
     fst (mfa p) = Raise e) /\
  snd (mfa p) = p.
Proof.
  unfold mfa. repeat split.
  - intros Hm. rewrite (dict_get_missing _ _ Hm). reflexivity.
  - intros d Hd Hf. rewrite (dict_get_lookup _ _ _ Hd), Hf. reflexivity.
  - intros d c Hd Ht Hc. rewrite (dict_get_lookup _ _ _ Hd), Ht, Hc. reflexivity.
  - intros d e Hd Ht Hc. rewrite (dict_get_lookup _ _ _ Hd), Ht, Hc. reflexivity.
  - destruct (truthy _); reflexivity.
Qed.

End ProjectProperties.

(** ** _ProjectManagementService.auth_for_project *)

Section ServiceProperties.
Context `{Collaborators}.
Variable self : Service.

Lemma nonempty_truthy s : s <> "" -> truthy (VStr s) = true.
Proof.
  intros Hs. simpl. destruct (String.eqb s "") eqn:E; [| reflexivity].
  apply String.eqb_eq in E. contradiction.
Qed.

Lemma auth_for_project_invalid v w :
  is_str v && truthy v = false ->
  auth_for_project self v w = (Raise (invalid_project_id v), w).
Proof.
  destruct v; simpl; intros Hv; try reflexivity.
  unfold auth_for_project. simpl. rewrite Hv. reflexivity.
Qed.

Lemma auth_for_project_valid s w :
  s <> "" ->
  auth_for_project self (VStr s) w =
  match project_clients w !! s with
  | Some client => (Ok client, locked_once w)
  | None =>
      (Ok (length (heap w)),
       locked_once (mkWorld (<[s := length (heap w)]> (project_clients w))
                      (heap w ++ [mkClient (svc_app self) s]) (trace w)))
  end.
Proof.
  intros Hs. unfold auth_for_project. rewrite (nonempty_truthy _ Hs). simpl.
  unfold with_lock, bind, read_clients. simpl.
  destruct (project_clients w !! s); reflexivity.
Qed.

(** C4: [auth_for_project] raises its [ValueError] exactly when the argument
    is not a non-empty string ([None], [''], [123], ...); it then leaves the
    world as it was: no lock operation, no request, the cache untouched.  On a
    non-empty string it returns a client. *)
Theorem auth_for_project_argument_check (v : value) (w : World) :
  is_ValueError (fst (auth_for_project self v w)) = negb (is_str v && truthy v) /\
  (is_str v && truthy v = false ->
     auth_for_project self v w = (Raise (invalid_project_id v), w)) /\
  (is_str v && truthy v = true ->
     exists client, fst (auth_for_project self v w) = Ok client) /\
  auth_for_project self VNone w = (Raise (invalid_project_id VNone), w) /\
  auth_for_project self (VStr "") w = (Raise (invalid_project_id (VStr "")), w) /\
  auth_for_project self (VInt 123) w = (Raise (invalid_project_id (VInt 123)), w).
Proof.
  assert (Hvalid : is_str v && truthy v = true ->
            exists client, fst (auth_for_project self v w) = Ok client).
  { intros Hv. destruct v; try discriminate. simpl in Hv.
    assert (Hs : s <> "") by (intros ->; discriminate).
    rewrite (auth_for_project_valid _ _ Hs).
    destruct (project_clients w !! s); eexists; reflexivity. }
  split; [| split; [| split]]; [| apply auth_for_project_invalid | exact Hvalid
                                | repeat split].
  destruct (is_str v && truthy v) eqn:Hv.
  - destruct (Hvalid eq_refl) as [c ->]. reflexivity.
  - rewrite (auth_for_project_invalid _ _ Hv). reflexivity.
Qed.

(** ** get_project and update_project *)

Lemma get_project_body w body :
  client_body (trace w) get_request = RespBody body ->
  get_project self w
  = (Project_new (convertProjectAuthPayloadToUser body),
     observed (observed w (EvRequest get_request))
       (EvPrint (convertProjectAuthPayloadToUser body))).
Proof.
  intros Hb. unfold get_project, try_except_RequestException, http_body.
  rewrite Hb. reflexivity.
Qed.

Lemma get_project_request_exception w detail :
  client_body (trace w) get_request = RespRequestException detail ->
  get_project self w
  = (Raise (Firebase (handle_auth_backend_error detail)),
     observed w (EvRequest get_request)).
Proof.
  intros Hb. unfold get_project, try_except_RequestException, http_body.
  rewrite Hb. reflexivity.
Qed.

Lemma get_project_other w name :
  client_body (trace w) get_request = RespOther name ->
  get_project self w
  = (Raise (OtherException name), observed w (EvRequest get_request)).
Proof.
  intros Hb. unfold get_project, try_except_RequestException, http_body.
  rewrite Hb. reflexivity.
Qed.

Lemma update_project_None w :
  update_project self VNone w = (Raise no_update_parameter, w).
Proof. reflexivity. Qed.

Lemma update_project_invalid v e w :
  v <> VNone -> validate_mfa_config v = Raise e ->
  update_project self v w = (Raise e, w).
Proof.
  intros Hv He. unfold update_project, bind, lift.
  destruct v; try contradiction; rewrite He; reflexivity.
Qed.

Lemma update_project_valid v r w :
  v <> VNone -> validate_mfa_config v = Ok r ->
  update_project self v w =
  let req := update_request [("mfa", r)] in
  match client_body (trace w) req with
  | RespBody body =>
      (Project_new (convertProjectAuthPayloadToUser body),
       observed w (EvRequest req))
  | RespRequestException detail =>
      (Raise (Firebase (handle_auth_backend_error detail)),
       observed w (EvRequest req))
  | RespOther name => (Raise (OtherException name), observed w (EvRequest req))
  end.
Proof.
  intros Hv Hr.
  unfold update_project, bind, lift, try_except_RequestException, http_body.
  destruct v; try contradiction; rewrite Hr; simpl;
    destruct (client_body _ _); reflexivity.
Qed.

(** C8: when the transport returns a body, [get_project] prints the converted
    payload right after the request, and only then builds the [Project]: the
    write is in the trace whether the constructor then returns or raises. *)
Theorem get_project_prints_payload (w : World) (body : value) :
  client_body (trace w) get_request = RespBody body ->
  let payload := convertProjectAuthPayloadToUser body in
  fst (get_project self w) = Project_new payload /\
  trace (snd (get_project self w))
  = trace w ++ [EvRequest get_request; EvPrint payload].
Proof.
  intros Hb payload. rewrite (get_project_body _ _ Hb). split; [reflexivity |].
  simpl. rewrite <- app_assoc. reflexivity.
Qed.

(** C3: [update_project] without [mfa] raises the [ValueError] and leaves the
    world as it was; in particular no request is in the trace. *)
Theorem update_project_without_field (w : World) :
  update_project self VNone w = (Raise no_update_parameter, w) /\
  is_ValueError (fst (update_project self VNone w)) = true /\
  requests_of (trace (snd (update_project self VNone w))) = requests_of (trace w).
Proof. repeat split. Qed.

Lemma requests_of_app t1 t2 :
  requests_of (t1 ++ t2) = requests_of t1 ++ requests_of t2.
Proof. unfold requests_of. apply omap_app. Qed.

(** C2: [update_project(mfa=v)] with a valid [v] issues one request, a
    [patch] with the parameter [updateMask=mfa] and the body [{"mfa": r}]
    where [r] is what the validator returned; for any payload, the mask is
    the comma-join of the payload's keys in their order. *)
Theorem update_project_request (v r : value) (w : World) :
  v <> VNone ->
  validate_mfa_config v = Ok r ->
  let req := mkRequest "patch" "" (Some (VDict [("mfa", r)])) (Some "updateMask=mfa") in
  trace (snd (update_project self v w)) = trace w ++ [EvRequest req] /\
  requests_of (trace (snd (update_project self v w)))
  = requests_of (trace w) ++ [req] /\
  (forall payload,
     req_method (update_request payload) = "patch" /\
     req_json (update_request payload) = Some (VDict payload) /\
     req_params (update_request payload)
     = Some ("updateMask=" +:+ str_join "," (dict_keys payload))).
Proof.
  intros Hv Hr req.
  assert (Ht : trace (snd (update_project self v w)) = trace w ++ [EvRequest req]).
  { rewrite (update_project_valid _ _ _ Hv Hr). simpl.
    change (update_request [("mfa", r)]) with req.
    destruct (client_body (trace w) req); reflexivity. }
  split; [exact Ht |]. split.
  - rewrite Ht, requests_of_app. reflexivity.
  - intros payload. repeat split.
Qed.

End ServiceProperties.

(** ** Transport failures *)

Section ErrorPropagation.
Context `{Collaborators}.
Variable self : Service.

Lemma get_project_trace w :
  exists ext, trace (snd (get_project self w)) = trace w ++ ext /\
              length (requests_of ext) = 1.
Proof.
  destruct (client_body (trace w) get_request) as [body|detail|name] eqn:Hb.
  - rewrite (get_project_body _ _ _ Hb). simpl.
    eexists [_; _]. rewrite <- app_assoc. split; reflexivity.
  - rewrite (get_project_request_exception _ _ _ Hb). simpl.
    eexists [_]. split; reflexivity.
  - rewrite (get_project_other _ _ _ Hb). simpl.
    eexists [_]. split; reflexivity.
Qed.

Lemma update_project_trace v w :
  exists ext, trace (snd (update_project self v w)) = trace w ++ ext /\
              length (requests_of ext) <= 1.
Proof.
  destruct (value_None_or_not v) as [-> | Hv].
  { exists []. rewrite update_project_None, app_nil_r. split; [reflexivity | simpl; lia]. }
  destruct (validate_mfa_config v) as [r|e] eqn:Hr.
  - rewrite (update_project_valid _ _ _ _ Hv Hr). simpl.
    destruct (client_body _ _); eexists [_]; split; reflexivity.
  - rewrite (update_project_invalid _ _ _ _ Hv Hr). simpl.
    exists []. rewrite app_nil_r. split; [reflexivity | simpl; lia].
Qed.

(** C5: when the transport raises a [RequestException], [get_project] and
    [update_project] raise the domain error the error mapping makes of it,
    after that one request and nothing else; no call issues more than one
    request; an error mapped to project-not-found is raised as such. *)
Theorem transport_failure_is_translated (w : World) (detail : string) :
  (client_body (trace w) get_request = RespRequestException detail ->
     get_project self w
     = (Raise (Firebase (handle_auth_backend_error detail)),
        observed w (EvRequest get_request))) /\
  (forall v r, v <> VNone -> validate_mfa_config v = Ok r ->
     client_body (trace w) (update_request [("mfa", r)])
     = RespRequestException detail ->
     update_project self v w
     = (Raise (Firebase (handle_auth_backend_error detail)),
        observed w (EvRequest (update_request [("mfa", r)])))) /\
  (exists ext, trace (snd (get_project self w)) = trace w ++ ext /\
               length (requests_of ext) <= 1) /\
  (forall v, exists ext,
     trace (snd (update_project self v w)) = trace w ++ ext /\
     length (requests_of ext) <= 1) /\
  (forall msg, handle_auth_backend_error detail = ProjectNotFoundError msg ->
     (client_body (trace w) get_request = RespRequestException detail ->
        fst (get_project self w) = Raise (Firebase (ProjectNotFoundError msg))) /\
     (forall v r, v <> VNone -> validate_mfa_config v = Ok r ->
        client_body (trace w) (update_request [("mfa", r)])
        = RespRequestException detail ->
        fst (update_project self v w)
        = Raise (Firebase (ProjectNotFoundError msg)))).
Proof.
  assert (Hupd : forall v r, v <> VNone -> validate_mfa_config v = Ok r ->
     client_body (trace w) (update_request [("mfa", r)])
     = RespRequestException detail ->
     update_project self v w
     = (Raise (Firebase (handle_auth_backend_error detail)),
        observed w (EvRequest (update_request [("mfa", r)])))).
  { intros v r Hv Hr Hb. rewrite (update_project_valid _ _ _ _ Hv Hr).
    simpl. rewrite Hb. reflexivity. }
  split; [apply get_project_request_exception |].
  split; [exact Hupd |].
  split.
  { destruct (get_project_trace w) as (ext & Ht & Hn). exists ext. split; [exact Ht | lia]. }
  split; [intros v; apply update_project_trace |].
  intros msg Hm. split.
  - intros Hb. rewrite (get_project_request_exception _ _ _ Hb), Hm. reflexivity.
  - intros v r Hv Hr Hb. rewrite (Hupd _ _ Hv Hr Hb), Hm. reflexivity.
Qed.

End ErrorPropagation.

(** ** The client cache *)

Section ClientCache.
Context `{Collaborators}.
Variable self : Service.

Lemma get_project_frame w :
  project_clients (snd (get_project self w)) = project_clients w /\
  heap (snd (get_project self w)) = heap w.
Proof.
  destruct (client_body (trace w) get_request) as [body|detail|name] eqn:Hb.
  - rewrite (get_project_body _ _ _ Hb). split; reflexivity.
  - rewrite (get_project_request_exception _ _ _ Hb). split; reflexivity.
  - rewrite (get_project_other _ _ _ Hb). split; reflexivity.
Qed.

Lemma update_project_frame v w :
  project_clients (snd (update_project self v w)) = project_clients w /\
  heap (snd (update_project self v w)) = heap w.
Proof.
  destruct (value_None_or_not v) as [-> | Hv]; [split; reflexivity |].
  destruct (validate_mfa_config v) as [r|e] eqn:Hr.
  - rewrite (update_project_valid _ _ _ _ Hv Hr). simpl.
    destruct (client_body _ _); split; reflexivity.
  - rewrite (update_project_invalid _ _ _ _ Hv Hr). split; reflexivity.
Qed.

(** What a call to [auth_for_project] does to the cache and the heap. *)
Lemma auth_for_project_frame v w :
  (project_clients (snd (auth_for_project self v w)) = project_clients w /\
   heap (snd (auth_for_project self v w)) = heap w) \/
  (exists s, v = VStr s /\ project_clients w !! s = None /\
     project_clients (snd (auth_for_project self v w))
     = <[s := length (heap w)]> (project_clients w) /\
     heap (snd (auth_for_project self v w))
     = heap w ++ [mkClient (svc_app self) s]).
Proof.
  destruct (is_str v && truthy v) eqn:Hv.
  - destruct v; try discriminate. simpl in Hv.
    assert (Hs : s <> "") by (intros ->; discriminate).
    rewrite (auth_for_project_valid _ _ _ Hs).
    destruct (project_clients w !! s) eqn:Hl.
    + left. split; reflexivity.
    + right. exists s. split; [reflexivity |]. split; [exact Hl |].
      split; reflexivity.
  - rewrite (auth_for_project_invalid _ _ _ Hv). left. split; reflexivity.
Qed.

Lemma run_call_frame c w :
  (project_clients (run_call self c w) = project_clients w /\
   heap (run_call self c w) = heap w) \/
  (exists s, project_clients w !! s = None /\
     project_clients (run_call self c w)
     = <[s := length (heap w)]> (project_clients w) /\
     heap (run_call self c w) = heap w ++ [mkClient (svc_app self) s]).
Proof.
  destruct c as [v| |v]; simpl.
  - destruct (auth_for_project_frame v w) as [Hf | (s & _ & Hs)];
      [left; exact Hf | right; exists s; exact Hs].
  - left. apply get_project_frame.
  - left. apply update_project_frame.
Qed.

Lemma run_call_keeps c w k a :
  project_clients w !! k = Some a ->
  project_clients (run_call self c w) !! k = Some a.
Proof.
  intros Hk.
  destruct (run_call_frame c w) as [[-> _] | (s & Hs & -> & _)]; [exact Hk |].
  rewrite lookup_insert_ne; [exact Hk | congruence].
Qed.

Lemma run_call_cache_ok c w : cache_ok self w -> cache_ok self (run_call self c w).
Proof.
  intros Hok k a.
  destruct (run_call_frame c w) as [[-> ->] | (s & Hs & -> & ->)]; [apply Hok |].
  destruct (decide (s = k)) as [-> | Hne].
  - rewrite lookup_insert_eq. intros [= <-].
    rewrite lookup_app_r, Nat.sub_diag by lia. reflexivity.
  - rewrite lookup_insert_ne by exact Hne. intros Hk.
    apply lookup_app_l_Some, Hok, Hk.
Qed.

Lemma run_calls_keeps cs w k a :
  project_clients w !! k = Some a ->
  project_clients (run_calls self cs w) !! k = Some a.
Proof.
  revert w. induction cs as [|c cs IH]; intros w Hk; [exact Hk |].
  apply IH, run_call_keeps, Hk.
Qed.

Lemma run_calls_cache_ok cs w :
  cache_ok self w -> cache_ok self (run_calls self cs w).
Proof.
  revert w. induction cs as [|c cs IH]; intros w Hok; [exact Hok |].
  apply IH, run_call_cache_ok, Hok.
Qed.

Lemma cache_ok_init h t : cache_ok self (Service_init_world h t).
Proof. intros k a Hk. simpl in Hk. rewrite lookup_empty in Hk. discriminate. Qed.

Lemma cache_ok_distinct w k1 k2 a1 a2 :
  cache_ok self w ->
  project_clients w !! k1 = Some a1 -> project_clients w !! k2 = Some a2 ->
  k1 <> k2 -> a1 <> a2.
Proof.
  intros Hok H1 H2 Hne ->. apply Hok in H1, H2. congruence.
Qed.

End ClientCache.

Section ClientCacheTheorem.
Context `{Collaborators}.
Variable self : Service.

Lemma auth_for_project_result s w :
  s <> "" ->
  exists client,
    fst (auth_for_project self (VStr s) w) = Ok client /\
    project_clients (snd (auth_for_project self (VStr s) w)) !! s = Some client.
Proof.
  intros Hs. rewrite (auth_for_project_valid _ _ _ Hs).
  destruct (project_clients w !! s) as [a|] eqn:Hl.
  - exists a. split; [reflexivity | exact Hl].
  - exists (length (heap w)). split; [reflexivity |]. simpl.
    apply lookup_insert_eq.
Qed.

Lemma auth_for_project_cached s w client :
  s <> "" -> project_clients w !! s = Some client ->
  auth_for_project self (VStr s) w = (Ok client, locked_once w).
Proof. intros Hs Hl. rewrite (auth_for_project_valid _ _ _ Hs), Hl. reflexivity. Qed.

(** C1: on a service that has served any calls since its creation, a call
    of [auth_for_project] with a non-empty string returns a client object
    built for that ID; when the ID was not in the cache the object is a new
    one, appended to the heap and inserted in the cache; every later call
    with the same ID, whatever calls come in between, returns the same object
    and changes neither heap nor cache; a call with another ID returns
    another object; no call replaces or removes an entry of the cache. *)
Theorem auth_for_project_caches
    (h : list Client) (t : list Event) (before : list call) (pid : string) :
  pid <> "" ->
  let w := run_calls self before (Service_init_world h t) in
  let r1 := fst (auth_for_project self (VStr pid) w) in
  let w1 := snd (auth_for_project self (VStr pid) w) in
  exists client,
    r1 = Ok client /\
    heap w1 !! client = Some (mkClient (svc_app self) pid) /\
    (project_clients w !! pid = None ->
       client = length (heap w) /\
       heap w1 = heap w ++ [mkClient (svc_app self) pid] /\
       project_clients w1 = <[pid := client]> (project_clients w)) /\
    (forall later,
       let w2 := run_calls self later w1 in
       auth_for_project self (VStr pid) w2 = (Ok client, locked_once w2) /\
       heap (locked_once w2) = heap w2 /\
       project_clients (locked_once w2) = project_clients w2) /\
    (forall later pid', pid' <> "" -> pid' <> pid ->
       exists client',
         fst (auth_for_project self (VStr pid') (run_calls self later w1))
         = Ok client' /\ client' <> client) /\
    (forall later k a, project_clients w1 !! k = Some a ->
       project_clients (run_calls self later w1) !! k = Some a).
Proof.
  intros Hpid w r1 w1.
  assert (Hok : cache_ok self w) by apply run_calls_cache_ok, cache_ok_init.
  assert (Hok1 : cache_ok self w1)
    by apply (run_call_cache_ok self (CallAuthForProject (VStr pid)) w Hok).
  destruct (auth_for_project_result pid w Hpid) as (client & Hr & Hl).
  fold w1 in Hl. exists client.
  split; [exact Hr |]. split; [apply Hok1, Hl |]. split; [| split; [| split]].
  - intros Hnone. subst r1 w1. revert Hr.
    rewrite (auth_for_project_valid _ _ _ Hpid), Hnone. simpl.
    intros [= <-]. repeat split.
  - intros later w2. split; [| split; reflexivity].
    apply auth_for_project_cached; [exact Hpid |].
    apply run_calls_keeps, Hl.
  - intros later pid' Hpid' Hne.
    set (w2 := run_calls self later w1).
    destruct (auth_for_project_result pid' w2 Hpid') as (client' & Hr' & Hl').
    exists client'. split; [exact Hr' |].
    set (w3 := snd (auth_for_project self (VStr pid') w2)) in *.
    assert (Hok3 : cache_ok self w3).
    { apply (run_call_cache_ok self (CallAuthForProject (VStr pid')) w2).
      apply run_calls_cache_ok, Hok1. }
    assert (Hl3 : project_clients w3 !! pid = Some client).
    { apply (run_call_keeps self (CallAuthForProject (VStr pid')) w2).
      apply run_calls_keeps, Hl. }
    exact (cache_ok_distinct self w3 pid' pid client' client Hok3 Hl' Hl3 Hne).
  - intros later k a. apply run_calls_keeps.
Qed.

End ClientCacheTheorem.

(** ** Concurrent callers of auth_for_project *)

Section ConcurrentCallers.
Import Threads.
Variable self : Service.
Variable pid : string.
Variable m0 : gmap string addr.
Variable h0 : list Client.
Hypothesis Hpid : pid <> "".
Hypothesis Hm0 : m0 !! pid = None.

Local Abbreviation inv := (Threads.inv self pid m0 h0).
Local Abbreviation pc_ok := (Threads.pc_ok self pid m0 h0).
Local Abbreviation stored := (Threads.stored self pid m0 h0).
Local Abbreviation created := (Threads.created self pid m0 h0).
Local Abbreviation not_created := (Threads.not_created m0 h0).

Lemma not_created_not_stored c : not_created c -> stored c -> False.
Proof.
  intros [Hh _] [Hh' _]. rewrite Hh in Hh'.
  apply (f_equal length) in Hh'. rewrite length_app in Hh'. simpl in Hh'. lia.
Qed.

Lemma created_not_stored c : created c -> stored c -> False.
Proof.
  intros [_ Hm] [_ Hm']. rewrite Hm in Hm'.
  apply (f_equal (fun m => m !! pid)) in Hm'.
  rewrite lookup_insert_eq, Hm0 in Hm'. discriminate.
Qed.

Lemma not_created_not_created' c : not_created c -> created c -> False.
Proof.
  intros [Hh _] [Hh' _]. rewrite Hh in Hh'.
  apply (f_equal length) in Hh'. rewrite length_app in Hh'. simpl in Hh'. lia.
Qed.

(** [pc_ok] looks at the lock, the heap and the cache only. *)
Lemma pc_ok_same c c' j p :
  lock c' = lock c ->
  heap (world c') = heap (world c) ->
  project_clients (world c') = project_clients (world c) ->
  pc_ok c j p -> pc_ok c' j p.
Proof.
  intros Hl Hh Hm.
  unfold Threads.pc_ok, Threads.not_created, Threads.created, Threads.stored.
  rewrite Hl, Hh, Hm. trivial.
Qed.

(** A thread outside the critical section that has not returned is not
    concerned by the shared state. *)
Lemma pc_ok_outside c c' j p :
  holds_lock p = false -> has_returned p = false ->
  pc_ok c j p -> pc_ok c' j p.
Proof. destruct p; simpl; try discriminate; trivial. Qed.

Lemma pc_ok_holder c j p :
  holds_lock p = true -> pc_ok c j p -> lock c = Some (j, 1).
Proof. destruct p; simpl; try discriminate; tauto. Qed.

Lemma pc_ok_returned c j p :
  has_returned p = true -> pc_ok c j p -> stored c.
Proof. destruct p; simpl; try discriminate; tauto. Qed.

Lemma pc_ok_returned_keep c c' j p :
  has_returned p = true -> stored c' -> pc_ok c j p -> pc_ok c' j p.
Proof. destruct p; simpl; try discriminate; tauto. Qed.


Lemma pcs_update (c' : Config) ts i p' :
  i < length ts ->
  pc_ok c' i p' ->
  (forall j p, j <> i -> ts !! j = Some p -> pc_ok c' j p) ->
  forall j p, <[i := p']> ts !! j = Some p -> pc_ok c' j p.
Proof.
  intros Hlt Hi Hothers j p. destruct (decide (j = i)) as [-> | Hne].
  - rewrite list_lookup_insert_eq by exact Hlt. intros [= <-]. exact Hi.
  - rewrite list_lookup_insert_ne by congruence. apply Hothers, Hne.
Qed.

Lemma inv_step i c c' : inv c -> step self i c = Some c' -> inv c'.
Proof.
  intros (Hpc & Hlock & Hphase & Hfree) Hstep. unfold step in Hstep.
  destruct (threads c !! i) as [p|] eqn:Hi; [| discriminate].
  pose proof (Hpc i p Hi) as Hp.
  assert (Hlt : i < length (threads c)) by (eapply lookup_lt_Some; eauto).
  destruct p as [v|s|s|s|s a|a|r]; simpl in Hp; cbv beta iota in Hstep.
  - (* line 139 *)
    subst v. pose proof (nonempty_truthy _ Hpid) as Ht.
    simpl in Ht, Hstep. rewrite Ht in Hstep. simpl in Hstep.
    injection Hstep as <-.
    split; [| split; [| split]]; simpl; try assumption.
    + apply pcs_update; [exact Hlt | reflexivity |].
      intros j p _ Hj. eapply pc_ok_same; [..| apply Hpc, Hj]; reflexivity.
    + intros o n Ho. destruct (Hlock o n Ho) as (p & Hop & Hh).
      exists p. split; [| exact Hh].
      rewrite list_lookup_insert_ne; [exact Hop |].
      intros <-. rewrite Hi in Hop. injection Hop as <-. discriminate.
  - (* line 143 *)
    subst s. destruct (lock c) as [[owner n]|] eqn:Hl.
    { destruct (decide (owner = i)) as [-> | Hne]; [| discriminate].
      destruct (Hlock i n eq_refl) as (p & Hop & Hh).
      rewrite Hi in Hop. injection Hop as <-. discriminate. }
    injection Hstep as <-.
    assert (Hnow : not_created c \/ stored c) by (apply Hfree; reflexivity).
    split; [| split; [| split]]; simpl.
    + apply pcs_update; [exact Hlt | |].
      * simpl. split; [reflexivity |]. split; [reflexivity |]. exact Hnow.
      * intros j p Hne Hj. pose proof (Hpc j p Hj) as Hjp.
        destruct (holds_lock p) eqn:Hh.
        { apply (pc_ok_holder _ _ _ Hh) in Hjp. congruence. }
        destruct (has_returned p) eqn:Hr.
        { eapply pc_ok_returned_keep; [exact Hr | | exact Hjp].
          exact (pc_ok_returned _ _ _ Hr Hjp). }
        eapply pc_ok_outside; eauto.
    + intros o n [= <- <-]. exists (AtLookup pid).
      split; [apply list_lookup_insert_eq, Hlt | reflexivity].
    + exact Hphase.
    + discriminate.
  - (* line 144 *)
    destruct Hp as (-> & Hl & Hnow).
    assert (Hothers : forall c'' j p, j <> i -> lock c'' = lock c ->
              heap (world c'') = heap (world c) ->
              project_clients (world c'') = project_clients (world c) ->
              threads c !! j = Some p -> pc_ok c'' j p).
    { intros c'' j p Hne H1 H2 H3 Hj.
      eapply pc_ok_same; [exact H1 | exact H2 | exact H3 | apply Hpc, Hj]. }
    destruct Hnow as [Hn | Hs].
    + assert (Hnone : project_clients (world c) !! pid = None)
        by (destruct Hn as [_ ->]; exact Hm0).
      rewrite Hnone in Hstep. injection Hstep as <-.
      split; [| split; [| split]]; simpl; try assumption.
      * apply pcs_update; [exact Hlt | simpl; auto |].
        intros j p Hne Hj. apply Hothers; auto.
      * intros o n Ho. rewrite Hl in Ho. injection Ho as <- <-.
        exists (AtConstruct pid).
        split; [apply list_lookup_insert_eq, Hlt | reflexivity].
    + assert (Hsome : project_clients (world c) !! pid = Some (length h0))
        by (destruct Hs as [_ ->]; apply lookup_insert_eq).
      rewrite Hsome in Hstep. injection Hstep as <-.
      split; [| split; [| split]]; simpl; try assumption.
      * apply pcs_update; [exact Hlt | simpl; auto |].
        intros j p Hne Hj. apply Hothers; auto.
      * intros o n Ho. rewrite Hl in Ho. injection Ho as <- <-.
        exists (AtRelease (length h0)).
        split; [apply list_lookup_insert_eq, Hlt | reflexivity].
  - (* line 147 *)
    destruct Hp as (-> & Hl & Hn). simpl in Hstep. injection Hstep as <-.
    assert (Hc : created
              (mkConfig
                 (mkWorld (project_clients (world c))
                    (heap (world c) ++ [mkClient (svc_app self) pid])
                    (trace (world c)))
                 (lock c) (<[i := AtStore pid (length (heap (world c)))]> (threads c)))).
    { destruct Hn as [Hh Hm]. split; simpl; [rewrite Hh; reflexivity | exact Hm]. }
    split; [| split; [| split]]; simpl.
    + apply pcs_update; [exact Hlt | |].
      * simpl. split; [reflexivity |]. split; [f_equal; apply Hn |].
        split; [exact Hl | exact Hc].
      * intros j p Hne Hj. pose proof (Hpc j p Hj) as Hjp.
        destruct (holds_lock p) eqn:Hh.
        { apply (pc_ok_holder _ _ _ Hh) in Hjp. congruence. }
        destruct (has_returned p) eqn:Hr.
        { exfalso. eapply not_created_not_stored; [exact Hn |].
          exact (pc_ok_returned _ _ _ Hr Hjp). }
        eapply pc_ok_outside; eauto.
    + intros o n Ho. rewrite Hl in Ho. injection Ho as <- <-.
      eexists. split; [apply list_lookup_insert_eq, Hlt | reflexivity].
    + right. left. exact Hc.
    + rewrite Hl. discriminate.
  - (* line 148 *)
    destruct Hp as (-> & -> & Hl & Hc). simpl in Hstep. injection Hstep as <-.
    assert (Hs : stored
              (mkConfig
                 (mkWorld (<[pid := length h0]> (project_clients (world c)))
                    (heap (world c)) (trace (world c)))
                 (lock c) (<[i := AtRelease (length h0)]> (threads c)))).
    { destruct Hc as [Hh Hm]. split; simpl; [exact Hh | rewrite Hm; reflexivity]. }
    split; [| split; [| split]]; simpl.
    + apply pcs_update; [exact Hlt | simpl; auto |].
      intros j p Hne Hj. pose proof (Hpc j p Hj) as Hjp.
      destruct (holds_lock p) eqn:Hh.
      { apply (pc_ok_holder _ _ _ Hh) in Hjp. congruence. }
      destruct (has_returned p) eqn:Hr.
      { exfalso. eapply created_not_stored; [exact Hc |].
        exact (pc_ok_returned _ _ _ Hr Hjp). }
      eapply pc_ok_outside; eauto.
    + intros o n Ho. rewrite Hl in Ho. injection Ho as <- <-.
      eexists. split; [apply list_lookup_insert_eq, Hlt | reflexivity].
    + right. right. exact Hs.
    + rewrite Hl. discriminate.
  - (* lines 145 and 149 *)
    destruct Hp as (-> & Hl & Hs). rewrite Hl in Hstep.
    destruct (decide (i = i)) as [_ | Hne]; [| contradiction].
    injection Hstep as <-.
    assert (Hs' : forall l ts,
              stored (mkConfig (snd (emit EvRelease (world c))) l ts))
      by (intros l ts; exact Hs).
    split; [| split; [| split]]; simpl.
    + apply pcs_update; [exact Hlt | simpl; split; [reflexivity | apply Hs'] |].
      intros j p Hne Hj. pose proof (Hpc j p Hj) as Hjp.
      destruct (holds_lock p) eqn:Hh.
      { apply (pc_ok_holder _ _ _ Hh) in Hjp. congruence. }
      destruct (has_returned p) eqn:Hr.
      { eapply pc_ok_returned_keep; [exact Hr | apply Hs' | exact Hjp]. }
      eapply pc_ok_outside; eauto.
    + discriminate.
    + right. right. apply Hs'.
    + intros _. right. apply Hs'.
  - discriminate.
Qed.


Lemma inv_turn c i : inv c -> inv (turn self c i).
Proof.
  intros Hinv. unfold turn. destruct (step self i c) as [c'|] eqn:Hs.
  - eapply inv_step; eauto.
  - exact Hinv.
Qed.

Lemma inv_run sched c : inv c -> inv (run self sched c).
Proof.
  revert c. induction sched as [|i sched IH]; intros c Hinv; [exact Hinv |].
  apply IH, inv_turn, Hinv.
Qed.

Lemma inv_start t n :
  inv (start (mkWorld m0 h0 t) (replicate n (VStr pid))).
Proof.
  split; [| split; [| split]]; simpl.
  - intros i p. rewrite list_lookup_fmap.
    destruct (replicate n (VStr pid) !! i) as [v|] eqn:Hv; [| discriminate].
    apply lookup_replicate in Hv as [-> _]. intros [= <-]. reflexivity.
  - discriminate.
  - left. split; reflexivity.
  - intros _. left. split; reflexivity.
Qed.

(** The number of threads never changes. *)
Lemma step_length i c c' :
  step self i c = Some c' -> length (threads c') = length (threads c).
Proof.
  unfold step. intros Hs.
  repeat (lazymatch type of Hs with
          | context [match ?x with _ => _ end] => destruct x
          end; try discriminate);
    injection Hs as <-; simpl; apply length_insert.
Qed.

Lemma run_length sched c : length (threads (run self sched c)) = length (threads c).
Proof.
  revert c. induction sched as [|i sched IH]; intros c; [reflexivity |].
  simpl. rewrite IH. unfold turn.
  destruct (step self i c) eqn:Hs; [eapply step_length; eauto | reflexivity].
Qed.

(** ** Progress *)

Lemma sum_remaining_insert ts i p p' :
  ts !! i = Some p ->
  sum_list (map remaining (<[i := p']> ts)) + remaining p
  = sum_list (map remaining ts) + remaining p'.
Proof.
  revert i. induction ts as [|q ts IH]; intros [|i] Hi; try discriminate; simpl in *.
  - injection Hi as ->. lia.
  - specialize (IH i Hi). lia.
Qed.

Lemma step_work i c c' : step self i c = Some c' -> work c' < work c.
Proof.
  unfold step, work. intros Hs.
  destruct (threads c !! i) as [p|] eqn:Hi; [| discriminate].
  assert (Hdec : forall w l p', remaining p' < remaining p ->
            sum_list (map remaining (threads (mkConfig w l (<[i := p']> (threads c)))))
            < sum_list (map remaining (threads c))).
  { intros w l p' Hlt. simpl.
    pose proof (sum_remaining_insert _ _ _ p' Hi). lia. }
  destruct p; cbv beta iota in Hs; try discriminate;
    repeat (lazymatch type of Hs with
            | context [match ?x with _ => _ end] => destruct x
            end; try discriminate);
    injection Hs as <-; apply Hdec; simpl; lia.
Qed.

Lemma not_all_returned ts :
  forallb has_returned ts = false ->
  exists i p, ts !! i = Some p /\ has_returned p = false.
Proof.
  induction ts as [|q ts IH]; simpl; [discriminate |].
  destruct (has_returned q) eqn:Hq; simpl.
  - intros Hts. destruct (IH Hts) as (i & p & Hi & Hp). exists (S i), p. auto.
  - intros _. exists 0, q. auto.
Qed.

(** No deadlock: while a caller has not returned, some thread can step. *)
Lemma progress c :
  inv c -> all_returned c = false -> exists i c', step self i c = Some c'.
Proof.
  intros (Hpc & Hlock & Hphase & Hfree) Hnot.
  assert (Hgo : forall i p, threads c !! i = Some p -> has_returned p = false ->
            (forall s, p = AtAcquire s -> lock c = None) ->
            exists c', step self i c = Some c').
  { intros i p Hi Hr Hacq. unfold step. rewrite Hi.
    destruct p as [v|s|s|s|s a|a|r]; try discriminate.
    - destruct v as [| | |s'| |]; try (eexists; reflexivity).
      destruct (negb (truthy (VStr s'))); eexists; reflexivity.
    - rewrite (Hacq s eq_refl). eexists; reflexivity.
    - destruct (project_clients (world c) !! s); eexists; reflexivity.
    - simpl. eexists; reflexivity.
    - eexists; reflexivity.
    - destruct (lock c) as [[o [|n]]|]; try (eexists; reflexivity).
      destruct (decide (o = i)); eexists; reflexivity. }
  destruct (lock c) as [[o n]|] eqn:Hl.
  - destruct (Hlock o n eq_refl) as (p & Hop & Hh). exists o.
    apply (Hgo o p Hop); [destruct p; try discriminate; reflexivity |].
    intros s ->. discriminate.
  - apply not_all_returned in Hnot as (i & p & Hi & Hp). exists i.
    apply (Hgo i p Hi Hp). reflexivity.
Qed.

(** Every execution can be continued until all callers have returned. *)
Lemma can_finish c : inv c -> exists sched, all_returned (run self sched c) = true.
Proof.
  remember (work c) as n eqn:Hn. revert c Hn.
  induction n as [n IH] using lt_wf_ind. intros c -> Hinv.
  destruct (all_returned c) eqn:Hall; [exists []; exact Hall |].
  destruct (progress c Hinv Hall) as (i & c' & Hs).
  destruct (IH (work c') (step_work _ _ _ Hs) c' eq_refl (inv_step _ _ _ Hinv Hs))
    as [sched Hfin].
  exists (i :: sched). simpl. unfold turn. rewrite Hs. exact Hfin.
Qed.


Lemma all_returned_lookup c i p :
  all_returned c = true -> threads c !! i = Some p -> has_returned p = true.
Proof.
  unfold all_returned. intros Hall Hi.
  rewrite forallb_forall in Hall. apply Hall.
  apply list_elem_of_In, list_elem_of_lookup. eauto.
Qed.

(** C9: [n] threads call [auth_for_project] with the same non-empty string
    that is not in the cache, and run under any schedule.  At every moment at
    most one client has been created; every caller that has returned has
    received that one client, which is then in the cache; when all have
    returned, all [n] hold it; and whatever the schedule did, the execution
    can be continued until all callers have returned. *)
Theorem concurrent_auth_for_project (n : nat) (t : list Event) (sched : list nat) :
  let c := run self sched (start (mkWorld m0 h0 t) (replicate n (VStr pid))) in
  length (threads c) = n /\
  (heap (world c) = h0 \/ heap (world c) = h0 ++ [mkClient (svc_app self) pid]) /\
  (forall i r, threads c !! i = Some (Returned r) ->
     r = Ok (length h0) /\
     heap (world c) = h0 ++ [mkClient (svc_app self) pid] /\
     project_clients (world c) = <[pid := length h0]> m0) /\
  (all_returned c = true ->
     forall i, i < n -> threads c !! i = Some (Returned (Ok (length h0)))) /\
  (exists more, all_returned (run self more c) = true).
Proof.
  intros c.
  assert (Hinv : inv c) by apply inv_run, inv_start.
  assert (Hlen : length (threads c) = n).
  { unfold c. rewrite run_length. simpl. rewrite length_map. apply length_replicate. }
  assert (Hret : forall i r, threads c !! i = Some (Returned r) ->
            r = Ok (length h0) /\
            heap (world c) = h0 ++ [mkClient (svc_app self) pid] /\
            project_clients (world c) = <[pid := length h0]> m0).
  { intros i r Hi. destruct Hinv as (Hpc & _).
    destruct (Hpc i _ Hi) as (-> & Hh & Hm). auto. }
  split; [exact Hlen |]. split; [| split; [exact Hret | split]].
  - destruct Hinv as (_ & _ & [[Hh _] | [[Hh _] | [Hh _]]] & _); auto.
  - intros Hall i Hi.
    destruct (lookup_lt_is_Some_2 (threads c) i) as [p Hp]; [lia |].
    pose proof (all_returned_lookup _ _ _ Hall Hp) as Hr.
    destruct p; try discriminate.
    destruct (Hret i r Hp) as (-> & _). exact Hp.
  - apply can_finish, Hinv.
Qed.

End ConcurrentCallers.

(** ** One thread alone *)

Section SingleThread.
Import Threads.
Variable self : Service.

Lemma turn_step i c c' : step self i c = Some c' -> turn self c i = c'.
Proof. unfold turn. intros ->. reflexivity. Qed.

Lemma step_check_invalid i c v :
  threads c !! i = Some (AtCheck v) -> is_str v && truthy v = false ->
  step self i c = Some (set_pc i (Returned (Raise (invalid_project_id v))) c).
Proof.
  intros Hi Hv. unfold step. rewrite Hi.
  destruct v; try reflexivity. simpl in Hv. simpl. rewrite Hv. reflexivity.
Qed.

Lemma step_check_valid i c s :
  threads c !! i = Some (AtCheck (VStr s)) -> s <> "" ->
  step self i c = Some (set_pc i (AtAcquire s) c).
Proof.
  intros Hi Hs. unfold step. rewrite Hi, (nonempty_truthy _ Hs). reflexivity.
Qed.

Lemma step_acquire_free i c s :
  threads c !! i = Some (AtAcquire s) -> lock c = None ->
  step self i c
  = Some (mkConfig (observed (world c) EvAcquire) (Some (i, 1))
            (<[i := AtLookup s]> (threads c))).
Proof. intros Hi Hl. unfold step. rewrite Hi, Hl. reflexivity. Qed.

Lemma step_lookup_hit i c s client :
  threads c !! i = Some (AtLookup s) ->
  project_clients (world c) !! s = Some client ->
  step self i c = Some (set_pc i (AtRelease client) c).
Proof. intros Hi Hl. unfold step. rewrite Hi, Hl. reflexivity. Qed.

Lemma step_lookup_miss i c s :
  threads c !! i = Some (AtLookup s) ->
  project_clients (world c) !! s = None ->
  step self i c = Some (set_pc i (AtConstruct s) c).
Proof. intros Hi Hl. unfold step. rewrite Hi, Hl. reflexivity. Qed.

Lemma step_construct i c s :
  threads c !! i = Some (AtConstruct s) ->
  step self i c
  = Some (mkConfig
            (mkWorld (project_clients (world c))
               (heap (world c) ++ [mkClient (svc_app self) s]) (trace (world c)))
            (lock c) (<[i := AtStore s (length (heap (world c)))]> (threads c))).
Proof. intros Hi. unfold step. rewrite Hi. reflexivity. Qed.

Lemma step_store i c s client :
  threads c !! i = Some (AtStore s client) ->
  step self i c
  = Some (mkConfig
            (mkWorld (<[s := client]> (project_clients (world c)))
               (heap (world c)) (trace (world c)))
            (lock c) (<[i := AtRelease client]> (threads c))).
Proof. intros Hi. unfold step. rewrite Hi. reflexivity. Qed.

Lemma step_release i c client :
  threads c !! i = Some (AtRelease client) -> lock c = Some (i, 1) ->
  step self i c
  = Some (mkConfig (observed (world c) EvRelease) None
            (<[i := Returned (Ok client)]> (threads c))).
Proof.
  intros Hi Hl. unfold step. rewrite Hi, Hl.
  destruct (decide (i = i)); [reflexivity | contradiction].
Qed.

(** Rewrites the turn that is taken first in the goal with a step lemma. *)
Ltac first_turn lem :=
  match goal with
  | |- context [turn ?sv ?c ?i] =>
      lazymatch c with
      | context [turn] => fail
      | _ => let H := lem i c in rewrite (turn_step i c _ H)
      end
  end.

(** X13: a thread that runs alone does what the method does: after six
    turns it has returned the result of the sequential [auth_for_project], the
    world is the one the method leaves, and the lock is free. *)
Lemma single_thread (v : value) (w : World) :
  let c := run self [0; 0; 0; 0; 0; 0] (start w [v]) in
  threads c = [Returned (fst (auth_for_project self v w))] /\
  world c = snd (auth_for_project self v w) /\
  lock c = None.
Proof.
  unfold run. cbn [fold_left].
  destruct (is_str v && truthy v) eqn:Hv.
  - destruct v; try discriminate. simpl in Hv.
    assert (Hs : s <> "") by (intros ->; discriminate).
    rewrite (auth_for_project_valid _ _ _ Hs).
    first_turn ltac:(fun i c => constr:(step_check_valid i c s eq_refl Hs)).
    first_turn ltac:(fun i c => constr:(step_acquire_free i c s eq_refl eq_refl)).
    destruct (project_clients w !! s) as [client|] eqn:Hl.
    + first_turn ltac:(fun i c => constr:(step_lookup_hit i c s client eq_refl Hl)).
      first_turn ltac:(fun i c => constr:(step_release i c client eq_refl eq_refl)).
      repeat split.
    + first_turn ltac:(fun i c => constr:(step_lookup_miss i c s eq_refl Hl)).
      first_turn ltac:(fun i c => constr:(step_construct i c s eq_refl)).
      first_turn ltac:(fun i c => constr:(step_store i c s (length (heap w)) eq_refl)).
      first_turn
        ltac:(fun i c => constr:(step_release i c (length (heap w)) eq_refl eq_refl)).
      repeat split.
  - rewrite (auth_for_project_invalid _ _ _ Hv).
    first_turn ltac:(fun i c => constr:(step_check_invalid i c v eq_refl Hv)).
    repeat split.
Qed.

End SingleThread.

(** * The theorems on concrete inputs *)

Lemma auth_for_project_caches_witness :
  "a" <> "" /\
  exists client,
    fst (auth_for_project service1 (VStr "a")
           (run_calls (H := stub (RespBody project1)) service1
              [CallGetProject; CallAuthForProject (VStr "b")] world0))
    = Ok client.
Proof.
  split; [discriminate |].
  destruct (@auth_for_project_caches (stub (RespBody project1)) service1 [] []
              [CallGetProject; CallAuthForProject (VStr "b")] "a"
              ltac:(discriminate)) as (client & Hr & _).
  exists client. exact Hr.
Defined.

Lemma update_project_request_witness :
  mfa1 <> VNone /\
  @validate_mfa_config (stub (RespBody project1)) mfa1 = Ok mfa1 /\
  trace (snd (@update_project (stub (RespBody project1)) service1 mfa1 world0))
  = trace world0 ++
    [EvRequest (mkRequest "patch" "" (Some (VDict [("mfa", mfa1)]))
                  (Some "updateMask=mfa"))].
Proof.
  split; [discriminate |]. split; [reflexivity |].
  exact (proj1 (@update_project_request (stub (RespBody project1)) service1
                  mfa1 mfa1 world0 ltac:(discriminate) eq_refl)).
Defined.

Lemma auth_for_project_argument_check_witness :
  is_str (VStr "a") && truthy (VStr "a") = true /\
  exists client, fst (auth_for_project service1 (VStr "a") world0) = Ok client.
Proof.
  split; [reflexivity |].
  exact (proj1 (proj2 (proj2
           (auth_for_project_argument_check service1 (VStr "a") world0))) eq_refl).
Defined.

Lemma transport_failure_is_translated_witness :
  @client_body (stub (RespRequestException "PROJECT_NOT_FOUND"))
    (trace world0) get_request
  = RespRequestException "PROJECT_NOT_FOUND" /\
  @get_project (stub (RespRequestException "PROJECT_NOT_FOUND")) service1 world0
  = (Raise (Firebase (@handle_auth_backend_error
                        (stub (RespRequestException "PROJECT_NOT_FOUND"))
                        "PROJECT_NOT_FOUND")),
     observed world0 (EvRequest get_request)).
Proof.
  split; [reflexivity |].
  exact (proj1 (@transport_failure_is_translated
                  (stub (RespRequestException "PROJECT_NOT_FOUND")) service1
                  world0 "PROJECT_NOT_FOUND") eq_refl).
Defined.

Lemma Project_new_fails_iff_witness :
  dict_contains "name" [("name", VStr "projects/p1")] = true /\
  Project_new (VDict [("name", VStr "projects/p1")])
  = Ok (mkProject [("name", VStr "projects/p1")]) /\
  dict_lookup "name" [("name", VStr "projects/p1")]
  = Some (project_id (mkProject [("name", VStr "projects/p1")])).
Proof.
  split; [reflexivity |].
  exact (proj2 (proj2 (proj2
           (Project_new_fails_iff (VDict [("name", VStr "projects/p1")]))))
           [("name", VStr "projects/p1")] eq_refl eq_refl).
Defined.

Lemma mfa_spec_witness :
  dict_lookup "multiFactorConfig" (_data (mkProject [("name", VStr "projects/p1")]))
  = None /\
  fst (@mfa (stub (RespBody project1)) (mkProject [("name", VStr "projects/p1")]))
  = Ok None.
Proof.
  split; [reflexivity |].
  exact (proj1 (@mfa_spec (stub (RespBody project1))
                  (mkProject [("name", VStr "projects/p1")])) eq_refl).
Defined.

Lemma get_project_prints_payload_witness :
  @client_body (stub (RespBody project1)) (trace world0) get_request
  = RespBody project1 /\
  fst (@get_project (stub (RespBody project1)) service1 world0)
  = Project_new project1 /\
  trace (snd (@get_project (stub (RespBody project1)) service1 world0))
  = trace world0 ++ [EvRequest get_request; EvPrint project1].
Proof.
  split; [reflexivity |].
  exact (@get_project_prints_payload (stub (RespBody project1)) service1
           world0 project1 eq_refl).
Defined.

Lemma Project_new_falsy_name_witness :
  dict_lookup "name" [("name", VNone)] = Some VNone /\
  truthy VNone = false /\
  exists p, Project_new (VDict [("name", VNone)]) = Ok p /\
            project_id p = VNone /\ truthy (project_id p) = false.
Proof.
  split; [reflexivity |]. split; [reflexivity |].
  exact (Project_new_falsy_name [("name", VNone)] VNone eq_refl eq_refl).
Defined.

Lemma concurrent_auth_for_project_witness :
  "a" <> "" /\
  (∅ : gmap string addr) !! "a" = None /\
  forall i r,
    Threads.threads
      (Threads.run service1 [0; 1; 2; 1; 1; 0; 1; 2; 1; 1; 0; 0]
         (Threads.start (mkWorld ∅ [] []) (replicate 3 (VStr "a")))) !! i
    = Some (Threads.Returned r) ->
    r = Ok 0.
Proof.
  split; [discriminate |]. split; [reflexivity |].
  intros i r Hi.
  exact (proj1 (proj1 (proj2 (proj2
           (concurrent_auth_for_project service1 "a" ∅ []
              ltac:(discriminate) eq_refl 3 []
              [0; 1; 2; 1; 1; 0; 1; 2; 1; 1; 0; 0]))) i r Hi)).
Defined.

(** * Further properties of the service *)

Example requested_ids_example :
  requested_ids
    [CallAuthForProject (VStr "a"); CallGetProject; CallAuthForProject (VStr "");
     CallAuthForProject (VInt 1); CallAuthForProject (VStr "b");
     CallAuthForProject (VStr "a")]
  = ["a"; "b"; "a"].
Proof. reflexivity. Qed.

(** Thread 0 checks its argument and takes the lock, thread 1 checks its
    argument and then waits: three turns out of six do something. *)
Example effective_turns_example :
  effective_turns service1 [0; 0; 1; 1; 1; 1]
    (Threads.start world0 [VStr "a"; VStr "a"]) = 3.
Proof. vm_compute. reflexivity. Qed.

Example cache_after_calls :
  let w := run_calls (H := stub (RespBody project1)) service1
             [CallAuthForProject (VStr "a"); CallGetProject;
              CallAuthForProject (VInt 1); CallAuthForProject (VStr "b");
              CallAuthForProject (VStr "a")] world0 in
  project_clients w !! "a" = Some 0 /\ project_clients w !! "b" = Some 1 /\
  project_clients w !! "c" = None /\ length (heap w) = 2.
Proof. vm_compute. repeat split. Qed.

Section Outcomes.
Context `{Collaborators}.
Variable self : Service.

Lemma Project_new_Ok data p :
  Project_new data = Ok p <->
  data = VDict (_data p) /\ dict_contains "name" (_data p) = true.
Proof.
  destruct p as [d]. simpl. split.
  - destruct data as [| | | | |d']; try discriminate.
    rewrite Project_new_dict.
    destruct (dict_contains "name" d') eqn:Hc; [| discriminate].
    intros [= ->]. split; [reflexivity | exact Hc].
  - intros [-> Hc]. rewrite Project_new_dict, Hc. reflexivity.
Qed.

(** X1: [get_project] returns a project exactly when the transport returned
    a body whose converted payload is a dictionary with the key ["name"]; the
    project then holds that dictionary. *)
Theorem get_project_returns_iff (w : World) (p : Project) :
  fst (get_project self w) = Ok p <->
  exists body,
    client_body (trace w) get_request = RespBody body /\
    convertProjectAuthPayloadToUser body = VDict (_data p) /\
    dict_contains "name" (_data p) = true.
Proof.
  destruct (client_body (trace w) get_request) as [body|detail|name] eqn:Hb.
  - rewrite (get_project_body _ _ _ Hb). simpl. rewrite Project_new_Ok. split.
    + intros [Hd Hc]. exists body. auto.
    + intros (body' & [= <-] & Hd & Hc). auto.
  - rewrite (get_project_request_exception _ _ _ Hb). simpl.
    split; [discriminate | intros (body & Hbody & _); discriminate].
  - rewrite (get_project_other _ _ _ Hb). simpl.
    split; [discriminate | intros (body & Hbody & _); discriminate].
Qed.

(** X2: an exception of the transport that is not a [RequestException] is
    not translated: [get_project] and [update_project] raise it as it is,
    after the one request. *)
Theorem other_exceptions_pass_through (w : World) (name : string) :
  (client_body (trace w) get_request = RespOther name ->
     get_project self w
     = (Raise (OtherException name), observed w (EvRequest get_request))) /\
  (forall v r, v <> VNone -> validate_mfa_config v = Ok r ->
     client_body (trace w) (update_request [("mfa", r)]) = RespOther name ->
     update_project self v w
     = (Raise (OtherException name),
        observed w (EvRequest (update_request [("mfa", r)])))).
Proof.
  split; [apply get_project_other |].
  intros v r Hv Hr Hb. rewrite (update_project_valid _ _ _ _ Hv Hr).
  simpl. rewrite Hb. reflexivity.
Qed.

(** X5: [update_project] leaves the world untouched exactly when no field
    was given or the validator raised; the validator's exception is raised
    as it is, and in every other case the trace grows by the one request. *)
Theorem update_project_sends_iff (v : value) (w : World) :
  (snd (update_project self v w) = w <->
     v = VNone \/ exists e, validate_mfa_config v = Raise e) /\
  (forall e, v <> VNone -> validate_mfa_config v = Raise e ->
     fst (update_project self v w) = Raise e) /\
  (forall r, v <> VNone -> validate_mfa_config v = Ok r ->
     trace (snd (update_project self v w))
     = trace w ++ [EvRequest (update_request [("mfa", r)])]).
Proof.
  assert (Hsent : forall r, v <> VNone -> validate_mfa_config v = Ok r ->
     trace (snd (update_project self v w))
     = trace w ++ [EvRequest (update_request [("mfa", r)])]).
  { intros r Hv Hr. rewrite (update_project_valid _ _ _ _ Hv Hr). simpl.
    destruct (client_body _ _); reflexivity. }
  split; [| split; [| exact Hsent]].
  - destruct (value_None_or_not v) as [-> | Hv].
    { split; [intros _; left; reflexivity | reflexivity]. }
    destruct (validate_mfa_config v) as [r|e] eqn:Hr.
    + split.
      * intros Hw. apply (f_equal trace) in Hw. rewrite (Hsent r Hv eq_refl) in Hw.
        apply (f_equal length) in Hw. rewrite length_app in Hw. simpl in Hw. lia.
      * intros [Hn | [e He]]; [contradiction | discriminate].
    + rewrite (update_project_invalid _ _ _ _ Hv Hr). simpl.
      split; [intros _; right; eauto | reflexivity].
  - intros e Hv He. rewrite (update_project_invalid _ _ _ _ Hv He). reflexivity.
Qed.

(** X6: [update_project] returns a project exactly when a field was given,
    the validator accepted it, and the transport answered the patch request
    with a body whose converted payload is a dictionary with the key
    ["name"]. *)
Theorem update_project_returns_iff (v : value) (w : World) (p : Project) :
  fst (update_project self v w) = Ok p <->
  v <> VNone /\
  exists r body,
    validate_mfa_config v = Ok r /\
    client_body (trace w) (update_request [("mfa", r)]) = RespBody body /\
    convertProjectAuthPayloadToUser body = VDict (_data p) /\
    dict_contains "name" (_data p) = true.
Proof.
  destruct (value_None_or_not v) as [-> | Hv].
  { rewrite update_project_None. simpl.
    split; [discriminate | intros [Hn _]; contradiction]. }
  destruct (validate_mfa_config v) as [r|e] eqn:Hr.
  - rewrite (update_project_valid _ _ _ _ Hv Hr). simpl.
    destruct (client_body (trace w) (update_request [("mfa", r)]))
      as [body|detail|name] eqn:Hb; simpl.
    + rewrite Project_new_Ok. split.
      * intros [Hd Hc]. split; [exact Hv |]. exists r, body. auto.
      * intros (_ & r' & body' & [= <-] & Hb' & Hd & Hc).
        rewrite Hb in Hb'. injection Hb' as <-. auto.
    + split; [discriminate |].
      intros (_ & r' & body' & [= <-] & Hb' & _). congruence.
    + split; [discriminate |].
      intros (_ & r' & body' & [= <-] & Hb' & _). congruence.
  - rewrite (update_project_invalid _ _ _ _ Hv Hr). simpl.
    split; [discriminate | intros (_ & r & body & Hr' & _); discriminate].
Qed.

Lemma prints_of_app t1 t2 : prints_of (t1 ++ t2) = prints_of t1 ++ prints_of t2.
Proof. unfold prints_of. apply omap_app. Qed.

Lemma lock_events_of_app t1 t2 :
  lock_events_of (t1 ++ t2) = lock_events_of t1 ++ lock_events_of t2.
Proof. unfold lock_events_of. apply List.filter_app. Qed.

(** X7: [update_project] never writes to standard output; [get_project]
    writes the converted payload when the transport returned a body, and
    nothing when the transport raised. *)
Theorem standard_output_writes (v : value) (w : World) :
  prints_of (trace (snd (update_project self v w))) = prints_of (trace w) /\
  prints_of (trace (snd (get_project self w)))
  = prints_of (trace w) ++
    match client_body (trace w) get_request with
    | RespBody body => [convertProjectAuthPayloadToUser body]
    | _ => []
    end.
Proof.
  split.
  - destruct (value_None_or_not v) as [-> | Hv]; [reflexivity |].
    destruct (validate_mfa_config v) as [r|e] eqn:Hr.
    + rewrite (update_project_valid _ _ _ _ Hv Hr). simpl.
      destruct (client_body _ _); simpl;
        rewrite prints_of_app; simpl; apply app_nil_r.
    + rewrite (update_project_invalid _ _ _ _ Hv Hr). reflexivity.
  - destruct (client_body (trace w) get_request) as [body|detail|name] eqn:Hb.
    + rewrite (get_project_body _ _ _ Hb). simpl.
      rewrite !prints_of_app. simpl. rewrite app_nil_r. reflexivity.
    + rewrite (get_project_request_exception _ _ _ Hb). simpl.
      rewrite prints_of_app. reflexivity.
    + rewrite (get_project_other _ _ _ Hb). simpl.
      rewrite prints_of_app. reflexivity.
Qed.

(** X3: [get_project] and [update_project] change neither the client cache
    nor the heap, and perform no lock operation. *)
Theorem rest_calls_leave_cache_alone (v : value) (w : World) :
  let w1 := snd (get_project self w) in
  let w2 := snd (update_project self v w) in
  project_clients w1 = project_clients w /\ heap w1 = heap w /\
  lock_events_of (trace w1) = lock_events_of (trace w) /\
  project_clients w2 = project_clients w /\ heap w2 = heap w /\
  lock_events_of (trace w2) = lock_events_of (trace w).
Proof.
  intros w1 w2.
  destruct (get_project_frame self w) as [Hc1 Hh1].
  destruct (update_project_frame self v w) as [Hc2 Hh2].
  repeat split; try assumption.
  - subst w1.
    destruct (client_body (trace w) get_request) as [body|detail|name] eqn:Hb.
    + rewrite (get_project_body _ _ _ Hb). simpl.
      rewrite !lock_events_of_app. simpl. rewrite !app_nil_r. reflexivity.
    + rewrite (get_project_request_exception _ _ _ Hb). simpl.
      rewrite lock_events_of_app. simpl. apply app_nil_r.
    + rewrite (get_project_other _ _ _ Hb). simpl.
      rewrite lock_events_of_app. simpl. apply app_nil_r.
  - subst w2. destruct (value_None_or_not v) as [-> | Hv]; [reflexivity |].
    destruct (validate_mfa_config v) as [r|e] eqn:Hr.
    + rewrite (update_project_valid _ _ _ _ Hv Hr). simpl.
      destruct (client_body _ _); simpl;
        rewrite lock_events_of_app; simpl; apply app_nil_r.
    + rewrite (update_project_invalid _ _ _ _ Hv Hr). reflexivity.
Qed.

(** X4: a call of [auth_for_project] with a non-empty string takes the lock
    once and releases it, and that is all it adds to the trace; with any
    other argument it adds nothing.  It never issues a request and never
    writes to standard output. *)
Theorem auth_for_project_trace (v : value) (w : World) :
  let w' := snd (auth_for_project self v w) in
  trace w'
  = trace w ++ (if is_str v && truthy v then [EvAcquire; EvRelease] else []) /\
  requests_of (trace w') = requests_of (trace w) /\
  prints_of (trace w') = prints_of (trace w).
Proof.
  intros w'.
  assert (Ht : trace w'
    = trace w ++ (if is_str v && truthy v then [EvAcquire; EvRelease] else [])).
  { subst w'. destruct (is_str v && truthy v) eqn:Hv.
    - destruct v; try discriminate. simpl in Hv.
      assert (Hs : s <> "") by (intros ->; discriminate).
      rewrite (auth_for_project_valid _ _ _ Hs).
      destruct (project_clients w !! s); simpl; rewrite <- app_assoc; reflexivity.
    - rewrite (auth_for_project_invalid _ _ _ Hv). simpl. symmetry. apply app_nil_r. }
  split; [exact Ht |]. rewrite Ht, requests_of_app, prints_of_app.
  destruct (is_str v && truthy v); simpl; rewrite !app_nil_r; split; reflexivity.
Qed.

End Outcomes.

(** ** What the cache holds after a sequence of calls *)

Section CacheContents.
Context `{Collaborators}.
Variable self : Service.

(** What one call does to the cache and the heap, by the kind of call. *)
Lemma run_call_cases c w :
  (requested_ids [c] = [] /\
   project_clients (run_call self c w) = project_clients w /\
   heap (run_call self c w) = heap w) \/
  (exists s, requested_ids [c] = [s] /\
     is_Some (project_clients w !! s) /\
     project_clients (run_call self c w) = project_clients w /\
     heap (run_call self c w) = heap w) \/
  (exists s, requested_ids [c] = [s] /\
     project_clients w !! s = None /\
     project_clients (run_call self c w)
     = <[s := length (heap w)]> (project_clients w) /\
     heap (run_call self c w) = heap w ++ [mkClient (svc_app self) s]).
Proof.
  destruct c as [v| |v]; simpl.
  - destruct (is_str v && truthy v) eqn:Hv.
    + destruct v; try discriminate. simpl in Hv.
      assert (Hs : s <> "") by (intros ->; discriminate).
      assert (He : String.eqb s "" = false) by (apply String.eqb_neq, Hs).
      rewrite He, (auth_for_project_valid _ _ _ Hs).
      destruct (project_clients w !! s) as [a|] eqn:Hl.
      * right. left. exists s. repeat split. eauto.
      * right. right. exists s. repeat split. exact Hl.
    + left. rewrite (auth_for_project_invalid _ _ _ Hv).
      split; [| split; reflexivity].
      destruct v; try reflexivity. simpl in Hv.
      destruct (String.eqb s ""); [reflexivity | discriminate].
  - left. split; [reflexivity | apply get_project_frame].
  - left. split; [reflexivity | apply update_project_frame].
Qed.

Lemma requested_ids_cons c cs :
  requested_ids (c :: cs) = requested_ids [c] ++ requested_ids cs.
Proof.
  destruct c as [v| |v]; try reflexivity.
  destruct v; try reflexivity. simpl.
  destruct (String.eqb s ""); reflexivity.
Qed.

Lemma run_calls_contents cs w :
  let w' := run_calls self cs w in
  (forall k, is_Some (project_clients w' !! k) <->
     is_Some (project_clients w !! k) \/ In k (requested_ids cs)) /\
  length (heap w') + size (project_clients w)
  = length (heap w) + size (project_clients w').
Proof.
  revert w. induction cs as [|c cs IH]; intros w.
  { simpl. split; [intros k; tauto | lia]. }
  cbv zeta. rewrite requested_ids_cons.
  change (run_calls self (c :: cs) w) with (run_calls self cs (run_call self c w)).
  destruct (IH (run_call self c w)) as [IHdom IHsize].
  destruct (run_call_cases c w)
    as [(Hr & Hc & Hh) | [(s & Hr & Hs & Hc & Hh) | (s & Hr & Hs & Hc & Hh)]];
    rewrite Hr; rewrite Hc, Hh in *.
  - split; [exact IHdom | exact IHsize].
  - split; [| exact IHsize].
    intros k. rewrite IHdom. simpl. split.
    + tauto.
    + intros [Hk | [<- | Hk]]; auto.
  - split.
    + intros k. rewrite IHdom. simpl.
      rewrite lookup_insert_is_Some. split.
      * intros [[-> | [_ Hk]] | Hk]; auto.
      * intros [Hk | [<- | Hk]]; auto.
        destruct (decide (s = k)) as [-> | Hne]; auto.
    + rewrite map_size_insert_None in IHsize by exact Hs.
      rewrite length_app in IHsize. simpl in IHsize. lia.
Qed.

(** X8: after any sequence of calls on a freshly initialised service, the
    cache has an entry exactly for the non-empty strings that were passed to
    [auth_for_project], and the service has created exactly one client per
    entry: the heap has grown by the size of the cache. *)
Theorem cache_holds_requested_ids
    (h : list Client) (t : list Event) (cs : list call) :
  let w := run_calls self cs (Service_init_world h t) in
  (forall k, is_Some (project_clients w !! k) <-> In k (requested_ids cs)) /\
  length (heap w) = length h + size (project_clients w).
Proof.
  intros w.
  destruct (run_calls_contents cs (Service_init_world h t)) as [Hdom Hsize].
  fold w in Hdom, Hsize. simpl in Hdom, Hsize. split.
  - intros k. rewrite Hdom, lookup_empty. split; [| auto].
    intros [[a Ha] | Hk]; [discriminate | exact Hk].
  - rewrite map_size_empty in Hsize. lia.
Qed.

(** X9: no call removes or changes a client object: the heap after any
    sequence of calls is the heap before, followed by the clients created
    meanwhile, each of them built for the application of the service. *)
Theorem heap_only_grows (cs : list call) (w : World) :
  exists created,
    heap (run_calls self cs w) = heap w ++ created /\
    Forall (fun c => client_app c = svc_app self) created.
Proof.
  revert w. induction cs as [|c cs IH]; intros w.
  { exists []. split; [symmetry; apply app_nil_r | constructor]. }
  change (run_calls self (c :: cs) w) with (run_calls self cs (run_call self c w)).
  destruct (IH (run_call self c w)) as (created & Hh & Hall).
  destruct (run_call_frame self c w) as [[_ Hsame] | (s & _ & _ & Hnew)].
  - exists created. rewrite Hh, Hsame. auto.
  - exists (mkClient (svc_app self) s :: created).
    rewrite Hh, Hnew, <- app_assoc. split; [reflexivity |].
    constructor; [reflexivity | exact Hall].
Qed.

End CacheContents.

(** ** Concurrent callers with arbitrary arguments *)

Section AnyCallersProofs.
Import Threads.
Variable self : Service.
Variable args : list value.
Variable w0 : World.

Local Abbreviation ok := (caller_ok self args).
Local Abbreviation ginv := (callers_inv self args w0).

Lemma caller_ok_holder c j p :
  holds_lock p = true -> ok c j p -> lock c = Some (j, 1).
Proof.
  intros Hh (v & _ & Hp). destruct p; try discriminate; simpl in Hp.
  - tauto.
  - tauto.
  - tauto.
  - destruct Hp as (s & _ & _ & Hl & _). exact Hl.
Qed.

(** A thread outside the critical section only relies on entries of the
    cache, which stay. *)
Lemma caller_ok_keep c c' j p :
  holds_lock p = false ->
  (forall k a, project_clients (world c) !! k = Some a ->
     project_clients (world c') !! k = Some a) ->
  ok c j p -> ok c' j p.
Proof.
  intros Hh Hmono (v & Hv & Hp). exists v. split; [exact Hv |].
  destruct p; try discriminate; simpl in *; try exact Hp.
  destruct Hp as [Hp | (s & a & Hs & Hne & Hr & Hl)]; [left; exact Hp |].
  right. exists s, a. auto.
Qed.

Lemma callers_update (c' : Config) ts i p' :
  i < length ts ->
  ok c' i p' ->
  (forall j p, j <> i -> ts !! j = Some p -> ok c' j p) ->
  forall j p, <[i := p']> ts !! j = Some p -> ok c' j p.
Proof.
  intros Hlt Hi Hothers j p. destruct (decide (j = i)) as [-> | Hne].
  - rewrite list_lookup_insert_eq by exact Hlt. intros [= <-]. exact Hi.
  - rewrite list_lookup_insert_ne by congruence. apply Hothers, Hne.
Qed.

(** The other threads when thread [i] steps while the lock is free or its
    own, and the cache keeps its entries. *)
Lemma others_keep c c' i :
  (forall j p, threads c !! j = Some p -> ok c j p) ->
  (lock c = None \/ exists n, lock c = Some (i, n)) ->
  (forall k a, project_clients (world c) !! k = Some a ->
     project_clients (world c') !! k = Some a) ->
  forall j p, j <> i -> threads c !! j = Some p -> ok c' j p.
Proof.
  intros Hpc Hl Hmono j p Hne Hj. pose proof (Hpc j p Hj) as Hjp.
  destruct (holds_lock p) eqn:Hh.
  - apply (caller_ok_holder _ _ _ Hh) in Hjp.
    destruct Hl as [Hl | [n Hl]]; congruence.
  - eapply caller_ok_keep; eauto.
Qed.

Lemma callers_inv_step i c c' : ginv c -> step self i c = Some c' -> ginv c'.
Proof.
  intros (Hpc & Hlock & Hcache & Hkeep & Hheap) Hstep. unfold step in Hstep.
  destruct (threads c !! i) as [p|] eqn:Hi; [| discriminate].
  destruct (Hpc i p Hi) as (v & Hv & Hp).
  assert (Hlt : i < length (threads c)) by (eapply lookup_lt_Some; eauto).
  assert (Hholder : forall q, holds_lock q = true -> lock c = Some (i, 1) ->
            forall o n, lock c = Some (o, n) ->
            exists p', <[i := q]> (threads c) !! o = Some p' /\ holds_lock p' = true).
  { intros q Hq Hl o n Ho. rewrite Hl in Ho. injection Ho as <- <-.
    exists q. split; [apply list_lookup_insert_eq, Hlt | exact Hq]. }
  destruct p as [v'|s|s|s|s a|a|r]; simpl in Hp; cbv beta iota in Hstep.
  - (* line 139 *)
    subst v'.
    assert (Hothers : forall c'', lock c'' = lock c -> world c'' = world c ->
              forall j p, j <> i -> threads c !! j = Some p -> ok c'' j p).
    { intros c'' H1 H2 j p Hne Hj. destruct (Hpc j p Hj) as (vj & Hvj & Hpj).
      exists vj. split; [exact Hvj |]. destruct p; simpl in *;
        rewrite ?H1, ?H2; exact Hpj. }
    assert (Hlk : forall q, holds_lock q = false -> forall o n,
              lock c = Some (o, n) ->
              exists p', <[i := q]> (threads c) !! o = Some p' /\
                         holds_lock p' = true).
    { intros q Hq o n Ho. destruct (Hlock o n Ho) as (p' & Hop & Hh).
      exists p'. split; [| exact Hh].
      rewrite list_lookup_insert_ne; [exact Hop |].
      intros <-. rewrite Hi in Hop. injection Hop as <-. discriminate. }
    destruct (is_str v && truthy v) eqn:Hvalid.
    + destruct v as [| | |s| |]; try discriminate. simpl in Hvalid.
      simpl in Hstep. rewrite Hvalid in Hstep. simpl in Hstep.
      injection Hstep as <-.
      split; [| split; [| split; [| split]]]; simpl; try assumption.
      * apply callers_update; [exact Hlt | | apply Hothers; reflexivity].
        exists (VStr s). split; [exact Hv |]. simpl. split; [reflexivity |].
        intros ->. discriminate.
      * apply Hlk. reflexivity.
    + assert (Hstep' : Some (set_pc i (Returned (Raise (invalid_project_id v))) c)
                       = Some c').
      { destruct v; try exact Hstep. simpl in Hvalid. simpl in Hstep.
        rewrite Hvalid in Hstep. exact Hstep. }
      injection Hstep' as <-.
      split; [| split; [| split; [| split]]]; simpl; try assumption.
      * apply callers_update; [exact Hlt | | apply Hothers; reflexivity].
        exists v. split; [exact Hv |]. simpl. left. auto.
      * apply Hlk. reflexivity.
  - (* line 143 *)
    destruct Hp as [-> Hs]. destruct (lock c) as [[owner n]|] eqn:Hl.
    { destruct (decide (owner = i)) as [-> | Hne]; [| discriminate].
      destruct (Hlock i n eq_refl) as (p & Hop & Hh).
      rewrite Hi in Hop. injection Hop as <-. discriminate. }
    injection Hstep as <-.
    split; [| split; [| split; [| split]]]; simpl; try assumption.
    + apply callers_update; [exact Hlt | |].
      * exists (VStr s). split; [exact Hv |]. simpl. auto.
      * apply (others_keep c); auto.
    + intros o n [= <- <-]. exists (AtLookup s).
      split; [apply list_lookup_insert_eq, Hlt | reflexivity].
  - (* line 144 *)
    destruct Hp as (-> & Hs & Hl).
    destruct (project_clients (world c) !! s) as [a|] eqn:Hc;
      injection Hstep as <-;
      (split; [| split; [| split; [| split]]]; simpl; try assumption).
    + apply callers_update; [exact Hlt | |].
      * exists (VStr s). split; [exact Hv |]. simpl. exists s. auto.
      * apply (others_keep c); eauto.
    + apply Hholder; [reflexivity | exact Hl].
    + apply callers_update; [exact Hlt | |].
      * exists (VStr s). split; [exact Hv |]. simpl. auto.
      * apply (others_keep c); eauto.
    + apply Hholder; [reflexivity | exact Hl].
  - (* line 147 *)
    destruct Hp as (-> & Hs & Hl & Hc). simpl in Hstep. injection Hstep as <-.
    split; [| split; [| split; [| split]]]; simpl.
    + apply callers_update; [exact Hlt | |].
      * exists (VStr s). split; [exact Hv |]. simpl.
        repeat (split; [assumption || reflexivity |]).
        rewrite lookup_app_r, Nat.sub_diag by lia. reflexivity.
      * apply (others_keep c); eauto.
    + apply Hholder; [reflexivity | exact Hl].
    + intros k a Hk. simpl. apply lookup_app_l_Some, Hcache, Hk.
    + exact Hkeep.
    + destruct Hheap as [created Hh]. exists (created ++ [mkClient (svc_app self) s]).
      rewrite Hh, app_assoc. reflexivity.
  - (* line 148 *)
    destruct Hp as (-> & Hs & Hl & Hc & Ha). simpl in Hstep. injection Hstep as <-.
    assert (Hmono : forall k b, project_clients (world c) !! k = Some b ->
              <[s := a]> (project_clients (world c)) !! k = Some b).
    { intros k b Hk. rewrite lookup_insert_ne; [exact Hk | congruence]. }
    split; [| split; [| split; [| split]]]; simpl.
    + apply callers_update; [exact Hlt | |].
      * exists (VStr s). split; [exact Hv |]. simpl. exists s.
        repeat (split; [assumption || reflexivity |]). apply lookup_insert_eq.
      * apply (others_keep c); eauto.
    + apply Hholder; [reflexivity | exact Hl].
    + intros k b. simpl. destruct (decide (s = k)) as [-> | Hne].
      * rewrite lookup_insert_eq. intros [= <-]. exact Ha.
      * rewrite lookup_insert_ne by exact Hne. apply Hcache.
    + intros k b Hk. apply Hmono, Hkeep, Hk.
    + exact Hheap.
  - (* lines 145 and 149 *)
    destruct Hp as (s & -> & Hs & Hl & Hc). rewrite Hl in Hstep.
    destruct (decide (i = i)) as [_ | Hne]; [| contradiction].
    injection Hstep as <-.
    split; [| split; [| split; [| split]]]; simpl; try assumption.
    + apply callers_update; [exact Hlt | |].
      * exists (VStr s). split; [exact Hv |]. simpl. right. exists s, a. auto.
      * apply (others_keep c); eauto.
    + discriminate.
  - discriminate.
Qed.

Lemma callers_inv_run sched c : ginv c -> ginv (run self sched c).
Proof.
  revert c. induction sched as [|i sched IH]; intros c Hinv; [exact Hinv |].
  simpl. apply IH. unfold turn.
  destruct (step self i c) as [c'|] eqn:Hs; [| exact Hinv].
  eapply callers_inv_step; eauto.
Qed.

Lemma callers_inv_start :
  cache_ok self w0 -> ginv (start w0 args).
Proof.
  intros Hok. split; [| split; [| split; [| split]]]; simpl.
  - intros i p. rewrite list_lookup_fmap.
    destruct (args !! i) as [v|] eqn:Hv; [| discriminate].
    intros [= <-]. exists v. split; [exact Hv | reflexivity].
  - discriminate.
  - exact Hok.
  - auto.
  - exists []. symmetry. apply app_nil_r.
Qed.

Lemma callers_progress c :
  ginv c -> all_returned c = false -> exists i c', step self i c = Some c'.
Proof.
  intros (Hpc & Hlock & _) Hnot.
  assert (Hgo : forall i p, threads c !! i = Some p -> has_returned p = false ->
            (forall s, p = AtAcquire s -> lock c = None) ->
            exists c', step self i c = Some c').
  { intros i p Hi Hr Hacq. unfold step. rewrite Hi.
    destruct p as [v|s|s|s|s a|a|r]; try discriminate.
    - destruct v as [| | |s'| |]; try (eexists; reflexivity).
      destruct (negb (truthy (VStr s'))); eexists; reflexivity.
    - rewrite (Hacq s eq_refl). eexists; reflexivity.
    - destruct (project_clients (world c) !! s); eexists; reflexivity.
    - simpl. eexists; reflexivity.
    - eexists; reflexivity.
    - destruct (lock c) as [[o [|n]]|]; try (eexists; reflexivity).
      destruct (decide (o = i)); eexists; reflexivity. }
  destruct (lock c) as [[o n]|] eqn:Hl.
  - destruct (Hlock o n eq_refl) as (p & Hop & Hh). exists o.
    apply (Hgo o p Hop); [destruct p; try discriminate; reflexivity |].
    intros s ->. discriminate.
  - apply not_all_returned in Hnot as (i & p & Hi & Hp). exists i.
    apply (Hgo i p Hi Hp). reflexivity.
Qed.

Lemma callers_can_finish c :
  ginv c -> exists sched, all_returned (run self sched c) = true.
Proof.
  remember (work c) as n eqn:Hn. revert c Hn.
  induction n as [n IH] using lt_wf_ind. intros c -> Hinv.
  destruct (all_returned c) eqn:Hall; [exists []; exact Hall |].
  destruct (callers_progress c Hinv Hall) as (i & c' & Hs).
  destruct (IH (work c') (step_work _ _ _ _ Hs) c' eq_refl
              (callers_inv_step _ _ _ Hinv Hs)) as [sched Hfin].
  exists (i :: sched). simpl. unfold turn. rewrite Hs. exact Hfin.
Qed.

End AnyCallersProofs.

Section AnyCallersTheorems.
Import Threads.
Context `{Collaborators}.
Variable self : Service.

Lemma at_most_one {A} (f : A -> bool) (l : list A) :
  (forall i j x y, l !! i = Some x -> l !! j = Some y ->
     f x = true -> f y = true -> i = j) ->
  length (List.filter f l) <= 1.
Proof.
  induction l as [|x l IH]; intros Huniq; simpl; [lia |].
  assert (Htail : forall i j a b, l !! i = Some a -> l !! j = Some b ->
            f a = true -> f b = true -> i = j).
  { intros i j a b Hi Hj Ha Hb.
    specialize (Huniq (S i) (S j) a b Hi Hj Ha Hb). lia. }
  destruct (f x) eqn:Hx; [| apply IH, Htail].
  assert (Hnone : List.filter f l = []).
  { destruct (List.filter f l) as [|y ys] eqn:Hf; [reflexivity |].
    assert (Hy : In y (List.filter f l)) by (rewrite Hf; left; reflexivity).
    apply List.filter_In in Hy as [Hin Hfy].
    apply list_elem_of_In, list_elem_of_lookup in Hin as [j Hj].
    specialize (Huniq 0 (S j) x y eq_refl Hj Hx Hfy). lia. }
  rewrite Hnone. simpl. lia.
Qed.

Lemma filter_none {A} (f : A -> bool) (l : list A) :
  (forall i x, l !! i = Some x -> f x = false) -> List.filter f l = [].
Proof.
  induction l as [|x l IH]; intros Hnone; simpl; [reflexivity |].
  rewrite (Hnone 0 x eq_refl). apply IH.
  intros i y Hi. apply (Hnone (S i) y Hi).
Qed.

Lemma reachable_inv h t before args sched :
  let w0 := run_calls self before (Service_init_world h t) in
  callers_inv self args w0 (run self sched (start w0 args)).
Proof.
  intros w0. apply callers_inv_run, callers_inv_start.
  apply run_calls_cache_ok, cache_ok_init.
Qed.

(** X10: whatever the arguments of the callers and the schedule, at most
    one thread is between taking and releasing the lock, and none is while
    the lock is free. *)
Theorem threads_mutual_exclusion
    (h : list Client) (t : list Event) (before : list call)
    (args : list value) (sched : list nat) :
  let w0 := run_calls self before (Service_init_world h t) in
  let c := run self sched (start w0 args) in
  length (List.filter holds_lock (threads c)) <= 1 /\
  (lock c = None -> List.filter holds_lock (threads c) = []).
Proof.
  intros w0 c.
  destruct (reachable_inv h t before args sched) as (Hpc & _).
  fold w0 in Hpc. fold c in Hpc. split.
  - apply at_most_one. intros i j p q Hi Hj Hp Hq.
    pose proof (caller_ok_holder _ _ _ _ _ Hp (Hpc i p Hi)) as Hli.
    pose proof (caller_ok_holder _ _ _ _ _ Hq (Hpc j q Hj)) as Hlj.
    congruence.
  - intros Hfree. apply filter_none. intros i p Hi.
    destruct (holds_lock p) eqn:Hp; [| reflexivity].
    pose proof (caller_ok_holder _ _ _ _ _ Hp (Hpc i p Hi)). congruence.
Qed.

(** X11: callers with arbitrary arguments, on a service that has served any
    calls before, under any schedule.  A caller that has returned got the
    [ValueError] if its argument is not a non-empty string, and otherwise the
    client that the cache holds for its ID, built for that ID; two callers got
    the same client exactly when they asked for the same ID; a caller asking
    for an ID cached before the threads started got the cached client; the
    entries and the clients that existed before are still there. *)
Theorem concurrent_callers_results
    (h : list Client) (t : list Event) (before : list call)
    (args : list value) (sched : list nat) :
  let w0 := run_calls self before (Service_init_world h t) in
  let c := run self sched (start w0 args) in
  (forall i r, threads c !! i = Some (Returned r) ->
     exists v, args !! i = Some v /\
       ((is_str v && truthy v = false /\ r = Raise (invalid_project_id v)) \/
        (exists s a, v = VStr s /\ s <> "" /\ r = Ok a /\
           project_clients (world c) !! s = Some a /\
           heap (world c) !! a = Some (mkClient (svc_app self) s)))) /\
  (forall i j s s' a a',
     args !! i = Some (VStr s) -> args !! j = Some (VStr s') ->
     threads c !! i = Some (Returned (Ok a)) ->
     threads c !! j = Some (Returned (Ok a')) ->
     (a = a' <-> s = s')) /\
  (forall i s a a0,
     args !! i = Some (VStr s) -> threads c !! i = Some (Returned (Ok a)) ->
     project_clients w0 !! s = Some a0 -> a = a0) /\
  (forall k a, project_clients w0 !! k = Some a ->
     project_clients (world c) !! k = Some a) /\
  (exists created, heap (world c) = heap w0 ++ created).
Proof.
  intros w0 c.
  destruct (reachable_inv h t before args sched)
    as (Hpc & _ & Hcache & Hkeep & Hheap).
  fold w0 in Hpc, Hcache, Hkeep, Hheap. fold c in Hpc, Hcache, Hkeep, Hheap.
  assert (Hres : forall i s a, args !! i = Some (VStr s) ->
            threads c !! i = Some (Returned (Ok a)) ->
            project_clients (world c) !! s = Some a).
  { intros i s a Hi Hr. destruct (Hpc i _ Hr) as (v & Hv & Hp). simpl in Hp.
    rewrite Hi in Hv. injection Hv as <-.
    destruct Hp as [[_ Hp] | (s' & a' & [= <-] & _ & [= <-] & Hl)];
      [discriminate | exact Hl]. }
  split; [| split; [| split; [| split]]].
  - intros i r Hr. destruct (Hpc i _ Hr) as (v & Hv & Hp). simpl in Hp.
    exists v. split; [exact Hv |].
    destruct Hp as [Hp | (s & a & Hs & Hne & -> & Hl)]; [left; exact Hp |].
    right. exists s, a. repeat (split; [assumption || reflexivity |]).
    apply Hcache, Hl.
  - intros i j s s' a a' Hi Hj Hri Hrj.
    pose proof (Hres i s a Hi Hri) as Hli.
    pose proof (Hres j s' a' Hj Hrj) as Hlj. split.
    + intros <-. apply Hcache in Hli, Hlj. congruence.
    + intros <-. congruence.
  - intros i s a a0 Hi Hr H0.
    pose proof (Hres i s a Hi Hr) as Hl. apply Hkeep in H0. congruence.
  - exact Hkeep.
  - exact Hheap.
Qed.

Lemma work_start w args : work (start w args) = 6 * length args.
Proof.
  unfold work, start. simpl. induction args as [|v args IH]; simpl; lia.
Qed.

Lemma effective_turns_work sched c :
  effective_turns self sched c + work (run self sched c) <= work c.
Proof.
  revert c. induction sched as [|i sched IH]; intros c; simpl; [lia |].
  unfold turn. destruct (step self i c) as [c'|] eqn:Hs.
  - pose proof (step_work _ _ _ _ Hs). specialize (IH c'). lia.
  - apply IH.
Qed.

(** X12: callers with arbitrary arguments cannot block each other for
    good: whatever the schedule did so far, the execution can be continued
    until every caller has returned; and a schedule contains at most six
    turns per caller at which a thread does step. *)
Theorem concurrent_callers_terminate
    (h : list Client) (t : list Event) (before : list call)
    (args : list value) (sched : list nat) :
  let w0 := run_calls self before (Service_init_world h t) in
  let c := run self sched (start w0 args) in
  (exists more, all_returned (run self more c) = true) /\
  length (threads c) = length args /\
  effective_turns self sched (start w0 args) <= 6 * length args.
Proof.
  intros w0 c. split; [| split].
  - apply (callers_can_finish self args w0), reachable_inv.
  - unfold c. rewrite run_length. simpl. apply length_map.
  - pose proof (effective_turns_work sched (start w0 args)) as Hw.
    rewrite work_start in Hw. lia.
Qed.

End AnyCallersTheorems.

(** ** Concurrent callers are linearisable *)

Section LinearisationProofs.
Import Threads.
Context `{Collaborators}.
Variable self : Service.
Variable args : list value.
Variable w0 : World.

Local Abbreviation sw := (seq_world self w0).
Local Abbreviation res_ok := (results_ok self w0).

Lemma seq_world_snoc vals v :
  sw (vals ++ [v]) = snd (auth_for_project self v (sw vals)).
Proof.
  unfold seq_world, auth_calls, run_calls.
  rewrite map_app, fold_left_app. reflexivity.
Qed.

Lemma mem_keep (ts : list pc) (order : list nat) i p p' :
  ts !! i = Some p -> linearised p = linearised p' ->
  (forall j, j ∈ order <-> exists q, ts !! j = Some q /\ linearised q = true) ->
  forall j, j ∈ order <->
    exists q, <[i := p']> ts !! j = Some q /\ linearised q = true.
Proof.
  intros Hi Hl Hmem j. rewrite Hmem.
  assert (Hlt : i < length ts) by (eapply lookup_lt_Some; eauto).
  destruct (decide (j = i)) as [-> | Hne].
  - rewrite list_lookup_insert_eq by exact Hlt. split.
    + intros (q & Hq & Hlq). rewrite Hi in Hq. injection Hq as <-.
      exists p'. split; [reflexivity | congruence].
    + intros (q & [= <-] & Hlq). exists p. split; [exact Hi | congruence].
  - rewrite list_lookup_insert_ne by congruence. reflexivity.
Qed.

Lemma mem_add (ts : list pc) (order : list nat) i p p' :
  ts !! i = Some p -> linearised p' = true ->
  (forall j, j ∈ order <-> exists q, ts !! j = Some q /\ linearised q = true) ->
  forall j, j ∈ order ++ [i] <->
    exists q, <[i := p']> ts !! j = Some q /\ linearised q = true.
Proof.
  intros Hi Hl Hmem j. rewrite elem_of_app, list_elem_of_singleton, Hmem.
  assert (Hlt : i < length ts) by (eapply lookup_lt_Some; eauto).
  destruct (decide (j = i)) as [-> | Hne].
  - rewrite list_lookup_insert_eq by exact Hlt. split; [| auto].
    intros _. exists p'. auto.
  - rewrite list_lookup_insert_ne by congruence. split; [| auto].
    intros [Hq | Hj]; [exact Hq | contradiction].
Qed.

Lemma res_other (ts : list pc) order vals i p' :
  res_ok ts order vals -> i ∉ order -> res_ok (<[i := p']> ts) order vals.
Proof.
  intros Hres Hni k j v Hk Hv.
  assert (Hne : i <> j) by (intros ->; apply Hni, list_elem_of_lookup; eauto).
  rewrite list_lookup_insert_ne by exact Hne. apply Hres; assumption.
Qed.

Lemma res_add (ts : list pc) order vals i v p p' :
  res_ok ts order vals -> ts !! i = Some p -> i ∉ order ->
  length order = length vals ->
  (p' = Returned (fst (auth_for_project self v (sw vals))) \/
   exists a, fst (auth_for_project self v (sw vals)) = Ok a /\ p' = AtRelease a) ->
  res_ok (<[i := p']> ts) (order ++ [i]) (vals ++ [v]).
Proof.
  intros Hres Hi Hni Hlen Hnew k j u Hk Hu.
  assert (Hlt : i < length ts) by (eapply lookup_lt_Some; eauto).
  destruct (decide (k < length order)) as [Hin | Hout].
  - rewrite lookup_app_l in Hk by lia. rewrite lookup_app_l in Hu by lia.
    rewrite take_app_le by lia.
    assert (Hne : i <> j) by (intros ->; apply Hni, list_elem_of_lookup; eauto).
    rewrite list_lookup_insert_ne by exact Hne. apply Hres; assumption.
  - rewrite lookup_app_r in Hk by lia. rewrite lookup_app_r in Hu by lia.
    destruct (k - length order) as [|n] eqn:Hk0; [| discriminate].
    replace (k - length vals) with 0 in Hu by lia.
    injection Hk as <-. injection Hu as <-.
    replace k with (length vals) by lia. rewrite take_app_length.
    rewrite list_lookup_insert_eq by exact Hlt.
    destruct Hnew as [-> | (a & Hr & ->)]; [left; reflexivity |].
    right. exists a. auto.
Qed.

Lemma res_return (ts : list pc) order vals i a :
  res_ok ts order vals -> ts !! i = Some (AtRelease a) ->
  res_ok (<[i := Returned (Ok a)]> ts) order vals.
Proof.
  intros Hres Hi k j v Hk Hv.
  assert (Hlt : i < length ts) by (eapply lookup_lt_Some; eauto).
  destruct (decide (j = i)) as [-> | Hne].
  - rewrite list_lookup_insert_eq by exact Hlt.
    destruct (Hres k i v Hk Hv) as [Hr | (a' & Hr & Ha)].
    + rewrite Hi in Hr. discriminate.
    + rewrite Hi in Ha. injection Ha as <-. left. rewrite Hr. reflexivity.
  - rewrite list_lookup_insert_ne by congruence. apply Hres; assumption.
Qed.


Lemma no_store_insert (ts : list pc) i p p' :
  ts !! i = Some p -> (forall s a, p <> AtStore s a) ->
  (forall j s a, <[i := p']> ts !! j <> Some (AtStore s a)) ->
  forall j s a, ts !! j <> Some (AtStore s a).
Proof.
  intros Hi Hp Hno j s a Hj. destruct (decide (j = i)) as [-> | Hne].
  - rewrite Hi in Hj. injection Hj as ->. exact (Hp s a eq_refl).
  - apply (Hno j s a). rewrite list_lookup_insert_ne by congruence. exact Hj.
Qed.

Lemma store_insert_other (ts : list pc) i p p' j s a :
  ts !! i = Some p -> (forall s' a', p' <> AtStore s' a') ->
  <[i := p']> ts !! j = Some (AtStore s a) ->
  j <> i /\ ts !! j = Some (AtStore s a).
Proof.
  intros Hi Hp Hj.
  assert (Hlt : i < length ts) by (eapply lookup_lt_Some; eauto).
  destruct (decide (j = i)) as [-> | Hne].
  - rewrite list_lookup_insert_eq in Hj by exact Hlt. injection Hj as ->.
    destruct (Hp s a eq_refl).
  - rewrite list_lookup_insert_ne in Hj by congruence. auto.
Qed.

(** The steps that neither create nor store a client and at which no call
    takes effect. *)
Lemma lin_inv_quiet c w' l' i p p' :
  lin_inv self args w0 c ->
  threads c !! i = Some p ->
  linearised p = linearised p' ->
  (linearised p = true -> exists a, p = AtRelease a /\ p' = Returned (Ok a)) ->
  (forall s a, p <> AtStore s a) -> (forall s a, p' <> AtStore s a) ->
  project_clients w' = project_clients (world c) ->
  heap w' = heap (world c) ->
  lin_inv self args w0 (mkConfig w' l' (<[i := p']> (threads c))).
Proof.
  intros (order & vals & Hnd & Hf2 & Hmem & Hc & Hh0 & Hh1 & Hres)
         Hi Hl Hrel Hp Hp' Hcw Hhw.
  exists order, vals. simpl. rewrite Hcw, Hhw.
  split; [exact Hnd |]. split; [exact Hf2 |].
  split; [eapply mem_keep; eauto |]. split; [exact Hc |].
  split; [| split].
  - intros Hno. apply Hh0. eapply no_store_insert; eauto.
  - intros j s a Hj.
    destruct (store_insert_other _ _ _ _ _ _ _ Hi Hp' Hj) as [_ Hj'].
    apply (Hh1 j s a Hj').
  - destruct (linearised p) eqn:Hlp.
    + destruct (Hrel eq_refl) as (a & -> & ->). apply res_return; assumption.
    + apply res_other; [exact Hres |].
      intros Hin. apply Hmem in Hin as (q & Hq & Hlq).
      rewrite Hi in Hq. injection Hq as <-. congruence.
Qed.

(** The steps at which a call takes effect without creating a client: the
    rejection of an argument and the hit in the cache. *)
Lemma lin_inv_effect c i p p' v r :
  lin_inv self args w0 c ->
  threads c !! i = Some p -> args !! i = Some v ->
  linearised p = false -> linearised p' = true ->
  (forall s a, p <> AtStore s a) -> (forall s a, p' <> AtStore s a) ->
  (forall w, project_clients w = project_clients (world c) ->
     fst (auth_for_project self v w) = r /\
     project_clients (snd (auth_for_project self v w)) = project_clients w /\
     heap (snd (auth_for_project self v w)) = heap w) ->
  (p' = Returned r \/ exists a, r = Ok a /\ p' = AtRelease a) ->
  lin_inv self args w0 (set_pc i p' c).
Proof.
  intros (order & vals & Hnd & Hf2 & Hmem & Hc & Hh0 & Hh1 & Hres)
         Hi Hv Hl Hl' Hp Hp' Hauth Hnew.
  destruct (Hauth (sw vals) (eq_sym Hc)) as (Hr & Hcs & Hhs).
  assert (Hni : i ∉ order).
  { intros Hin. apply Hmem in Hin as (q & Hq & Hlq).
    rewrite Hi in Hq. injection Hq as <-. congruence. }
  exists (order ++ [i]), (vals ++ [v]). simpl.
  rewrite seq_world_snoc, Hcs, Hhs.
  split; [| split; [| split; [| split; [| split; [| split]]]]].
  - apply NoDup_app. split; [exact Hnd |]. split; [| apply NoDup_singleton].
    intros x Hx Hxi. apply list_elem_of_singleton in Hxi as ->. exact (Hni Hx).
  - apply Forall2_app; [exact Hf2 |]. constructor; [exact Hv | constructor].
  - eapply mem_add; eauto.
  - exact Hc.
  - intros Hno. apply Hh0. eapply no_store_insert; eauto.
  - intros j s a Hj.
    destruct (store_insert_other _ _ _ _ _ _ _ Hi Hp' Hj) as [_ Hj'].
    apply (Hh1 j s a Hj').
  - eapply res_add; eauto using Forall2_length.
    rewrite Hr. exact Hnew.
Qed.

Lemma lin_inv_step i c c' :
  callers_inv self args w0 c -> lin_inv self args w0 c ->
  step self i c = Some c' -> lin_inv self args w0 c'.
Proof.
  intros (Hpc & Hlock & _) Hlin Hstep. unfold step in Hstep.
  destruct (threads c !! i) as [p|] eqn:Hi; [| discriminate].
  destruct (Hpc i p Hi) as (v & Hv & Hp).
  assert (Hlt : i < length (threads c)) by (eapply lookup_lt_Some; eauto).
  assert (Hexcl : lock c = Some (i, 1) ->
            forall j s a, j <> i -> threads c !! j <> Some (AtStore s a)).
  { intros Hl j s a Hne Hj.
    pose proof (caller_ok_holder self args c j (AtStore s a) eq_refl (Hpc j _ Hj)).
    congruence. }
  destruct p as [v'|s|s|s|s a|a|r]; simpl in Hp; cbv beta iota in Hstep.
  - (* line 139 *)
    subst v'. destruct (is_str v && truthy v) eqn:Hvalid.
    + destruct v as [| | |s| |]; try discriminate. simpl in Hvalid.
      simpl in Hstep. rewrite Hvalid in Hstep. simpl in Hstep.
      injection Hstep as <-.
      apply (lin_inv_quiet c (world c) (lock c) i (AtCheck (VStr s)));
        try (reflexivity || assumption || discriminate).
    + assert (Hstep' : Some (set_pc i (Returned (Raise (invalid_project_id v))) c)
                       = Some c').
      { destruct v; try exact Hstep. simpl in Hvalid. simpl in Hstep.
        rewrite Hvalid in Hstep. exact Hstep. }
      injection Hstep' as <-.
      apply (lin_inv_effect c i (AtCheck v) _ v (Raise (invalid_project_id v)));
        try (reflexivity || assumption || discriminate).
      * intros w _. rewrite (auth_for_project_invalid _ _ _ Hvalid). auto.
      * left. reflexivity.
  - (* line 143 *)
    destruct (lock c) as [[owner n]|] eqn:Hl.
    { destruct (decide (owner = i)) as [-> | Hne]; [| discriminate].
      destruct (Hlock i n eq_refl) as (p & Hop & Hh).
      rewrite Hi in Hop. injection Hop as <-. discriminate. }
    injection Hstep as <-.
    apply (lin_inv_quiet c _ _ i (AtAcquire s));
      try (reflexivity || assumption || discriminate).
  - (* line 144 *)
    destruct Hp as (-> & Hs & Hl).
    destruct (project_clients (world c) !! s) as [a|] eqn:Hc;
      injection Hstep as <-.
    + apply (lin_inv_effect c i (AtLookup s) _ (VStr s) (Ok a));
        try (reflexivity || assumption || discriminate).
      * intros w Hw. rewrite <- Hw in Hc.
        rewrite (auth_for_project_cached _ _ _ _ Hs Hc). auto.
      * right. exists a. auto.
    + apply (lin_inv_quiet c (world c) (lock c) i (AtLookup s));
        try (reflexivity || assumption || discriminate).
  - (* line 147 *)
    destruct Hp as (-> & Hs & Hl & Hc). simpl in Hstep. injection Hstep as <-.
    destruct Hlin as (order & vals & Hnd & Hf2 & Hmem & Hcw & Hh0 & Hh1 & Hres).
    assert (Hheap : heap (world c) = heap (sw vals)).
    { apply Hh0. intros j s' a' Hj. destruct (decide (j = i)) as [-> | Hne].
      - rewrite Hi in Hj. discriminate.
      - exact (Hexcl Hl j s' a' Hne Hj). }
    exists order, vals. simpl.
    split; [exact Hnd |]. split; [exact Hf2 |].
    split; [eapply mem_keep; eauto |]. split; [exact Hcw |].
    split; [| split].
    + intros Hno. exfalso. apply (Hno i s (length (heap (world c)))).
      apply list_lookup_insert_eq, Hlt.
    + intros j s' a' Hj. destruct (decide (j = i)) as [-> | Hne].
      * rewrite list_lookup_insert_eq in Hj by exact Hlt.
        injection Hj as <- <-. rewrite Hheap. auto.
      * rewrite list_lookup_insert_ne in Hj by congruence.
        destruct (Hexcl Hl j s' a' Hne Hj).
    + apply res_other; [exact Hres |].
      intros Hin. apply Hmem in Hin as (q & Hq & Hlq).
      rewrite Hi in Hq. injection Hq as <-. discriminate.
  - (* line 148 *)
    destruct Hp as (-> & Hs & Hl & Hc & Ha). simpl in Hstep. injection Hstep as <-.
    destruct Hlin as (order & vals & Hnd & Hf2 & Hmem & Hcw & Hh0 & Hh1 & Hres).
    destruct (Hh1 i s a Hi) as [-> Hheap].
    assert (Hni : i ∉ order).
    { intros Hin. apply Hmem in Hin as (q & Hq & Hlq).
      rewrite Hi in Hq. injection Hq as <-. discriminate. }
    assert (Hmiss : project_clients (sw vals) !! s = None) by (rewrite <- Hcw; exact Hc).
    assert (Hseq : auth_for_project self (VStr s) (sw vals)
              = (Ok (length (heap (sw vals))),
                 locked_once
                   (mkWorld (<[s := length (heap (sw vals))]> (project_clients (sw vals)))
                      (heap (sw vals) ++ [mkClient (svc_app self) s])
                      (trace (sw vals))))).
    { rewrite (auth_for_project_valid _ _ _ Hs), Hmiss. reflexivity. }
    exists (order ++ [i]), (vals ++ [VStr s]). simpl.
    rewrite seq_world_snoc, Hseq. simpl.
    split; [| split; [| split; [| split; [| split; [| split]]]]].
    + apply NoDup_app. split; [exact Hnd |]. split; [| apply NoDup_singleton].
      intros x Hx Hxi. apply list_elem_of_singleton in Hxi as ->. exact (Hni Hx).
    + apply Forall2_app; [exact Hf2 |]. constructor; [exact Hv | constructor].
    + eapply mem_add; eauto.
    + rewrite Hcw. reflexivity.
    + intros _. exact Hheap.
    + intros j s' a' Hj. destruct (decide (j = i)) as [-> | Hne].
      * rewrite list_lookup_insert_eq in Hj by exact Hlt. discriminate.
      * rewrite list_lookup_insert_ne in Hj by congruence.
        destruct (Hexcl Hl j s' a' Hne Hj).
    + eapply res_add; eauto using Forall2_length.
      right. exists (length (heap (sw vals))). rewrite Hseq. auto.
  - (* lines 145 and 149 *)
    destruct Hp as (s & -> & Hs & Hl & Hc). rewrite Hl in Hstep.
    destruct (decide (i = i)) as [_ | Hne]; [| contradiction].
    injection Hstep as <-.
    apply (lin_inv_quiet c _ _ i (AtRelease a));
      try (reflexivity || assumption || discriminate).
    intros _. exists a. auto.
  - discriminate.
Qed.

Lemma lin_inv_run sched c :
  callers_inv self args w0 c -> lin_inv self args w0 c ->
  lin_inv self args w0 (run self sched c).
Proof.
  revert c. induction sched as [|i sched IH]; intros c Hg Hlin; [exact Hlin |].
  simpl. unfold turn. destruct (step self i c) as [c'|] eqn:Hs.
  - apply IH; [eapply callers_inv_step | eapply lin_inv_step]; eauto.
  - apply IH; assumption.
Qed.

Lemma lin_inv_start : lin_inv self args w0 (start w0 args).
Proof.
  exists [], []. simpl.
  split; [constructor |]. split; [constructor |].
  split; [| split; [reflexivity | split; [reflexivity | split]]].
  - intros i. split; [intros Hin; inversion Hin |].
    intros (p & Hp & Hl). rewrite list_lookup_fmap in Hp.
    destruct (args !! i); [| discriminate]. injection Hp as <-. discriminate.
  - intros i s a Hi. rewrite list_lookup_fmap in Hi.
    destruct (args !! i); discriminate.
  - intros k i v Hk. discriminate.
Qed.

End LinearisationProofs.

Section LinearisationTheorem.
Import Threads.
Context `{Collaborators}.
Variable self : Service.

(** X14: concurrent callers are linearisable.  When callers with arbitrary
    arguments, on a service that has served any calls before, have all
    returned under some schedule, there is an order of the callers such that
    calling [auth_for_project] sequentially in that order gives the same
    cache and the same heap, and gives every caller the result that its
    thread returned. *)
Theorem concurrent_callers_linearisable
    (h : list Client) (t : list Event) (before : list call)
    (args : list value) (sched : list nat) :
  let w0 := run_calls self before (Service_init_world h t) in
  let c := run self sched (start w0 args) in
  all_returned c = true ->
  exists order vals,
    Permutation order (seq 0 (length args)) /\
    Forall2 (fun i v => args !! i = Some v) order vals /\
    project_clients (world c)
    = project_clients (run_calls self (auth_calls vals) w0) /\
    heap (world c) = heap (run_calls self (auth_calls vals) w0) /\
    forall k i v, order !! k = Some i -> vals !! k = Some v ->
      threads c !! i
      = Some (Returned
                (fst (auth_for_project self v
                        (run_calls self (auth_calls (take k vals)) w0)))).
Proof.
  intros w0 c Hall.
  assert (Hg : callers_inv self args w0 (start w0 args)).
  { apply callers_inv_start, run_calls_cache_ok, cache_ok_init. }
  destruct (lin_inv_run self args w0 sched _ Hg (lin_inv_start self args w0))
    as (order & vals & Hnd & Hf2 & Hmem & Hc & Hh0 & _ & Hres).
  fold c in Hmem, Hc, Hh0, Hres.
  assert (Hlen : length (threads c) = length args).
  { unfold c. rewrite run_length. simpl. apply length_map. }
  exists order, vals.
  split; [| split; [exact Hf2 | split; [exact Hc | split]]].
  - apply NoDup_Permutation; [exact Hnd | apply NoDup_seq |].
    intros i. rewrite Hmem, elem_of_seq. split.
    + intros (p & Hp & _). apply lookup_lt_Some in Hp. lia.
    + intros [_ Hi].
      destruct (lookup_lt_is_Some_2 (threads c) i) as [p Hp]; [simpl in Hi; lia |].
      exists p. split; [exact Hp |].
      pose proof (all_returned_lookup _ _ _ Hall Hp) as Hr.
      destruct p; try discriminate. reflexivity.
  - apply Hh0. intros i s a Hi.
    pose proof (all_returned_lookup _ _ _ Hall Hi). discriminate.
  - intros k i v Hk Hv. destruct (Hres k i v Hk Hv) as [Hr | (a & _ & Ha)].
    + exact Hr.
    + pose proof (all_returned_lookup _ _ _ Hall Ha). discriminate.
Qed.

End LinearisationTheorem.

Lemma concurrent_callers_linearisable_witness :
  Threads.all_returned
    (Threads.run service1
       [0; 1; 2; 1; 0; 1; 1; 0; 1; 1; 0; 0; 0; 0; 0]
       (Threads.start world0 [VStr "a"; VStr "b"; VInt 7])) = true /\
  exists order vals,
    Permutation order (seq 0 3) /\
    Forall2 (fun i v => [VStr "a"; VStr "b"; VInt 7] !! i = Some v) order vals /\
    heap (Threads.world
            (Threads.run service1
               [0; 1; 2; 1; 0; 1; 1; 0; 1; 1; 0; 0; 0; 0; 0]
               (Threads.start world0 [VStr "a"; VStr "b"; VInt 7])))
    = heap (run_calls (H := stub (RespBody project1)) service1
              (auth_calls vals) world0).
Proof.
  split; [vm_compute; reflexivity |].
  destruct (@concurrent_callers_linearisable (stub (RespBody project1)) service1
              [] [] [] [VStr "a"; VStr "b"; VInt 7]
              [0; 1; 2; 1; 0; 1; 1; 0; 1; 1; 0; 0; 0; 0; 0]
              ltac:(vm_compute; reflexivity))
    as (order & vals & Hperm & Hf2 & _ & Hheap & _).
  exists order, vals. split; [exact Hperm |]. split; [exact Hf2 | exact Hheap].
Defined.
